(** * Adversarial search agent for knight's Isolation

    A shallow embedding of [CustomPlayer] (my_custom_player.py, read from
    its compiled form my_custom_player.cpython-35.pyc): the heuristics
    [score], [score2] and [custom_heuristic], the mutually recursive
    [min_value] / [max_value], the two drivers [alpha_beta_search] and
    [NegamaxAlphaBeta], the dispatcher [get_action], and [mcts].

    The helpers that [mcts] imports with [from mcts import *]
    ([MCTS_Node], [tree_policy], [default_policy], [backup], [best_child])
    are not part of the sources at hand; they are modelled from the
    specification and marked as such.

    The second part embeds the constraint sets that the notebook
    AIND-Constraint_Satisfaction.ipynb hands to Z3 (module
    [Notebook]). *)

From stdpp Require Import base list strings pretty.
From Stdlib Require Import ZArith Lia.

Local Open Scope Z_scope.

(** ** Numbers the search manipulates

    The search mixes Python ints ([len(..) - len(..)]) with the floats
    [float("inf")] and [float("-inf")]; [value] is the integers closed
    with the two infinities. *)

Inductive value : Type :=
| NegInf
| Fin (z : Z)
| PosInf.

Module Value.

(** [a < b] *)
Definition ltb (a b : value) : bool :=
  match a, b with
  | NegInf, NegInf => false
  | NegInf, _ => true
  | Fin _, NegInf => false
  | Fin x, Fin y => x <? y
  | Fin _, PosInf => true
  | PosInf, _ => false
  end.

(** [a <= b] *)
Definition leb (a b : value) : bool :=
  match a, b with
  | NegInf, _ => true
  | Fin _, NegInf => false
  | Fin x, Fin y => x <=? y
  | Fin _, PosInf => true
  | PosInf, PosInf => true
  | PosInf, _ => false
  end.

(** [a >= b] is [b <= a]; [a > b] is [b < a]. *)
Definition geb (a b : value) : bool := leb b a.
Definition gtb (a b : value) : bool := ltb b a.

(** Python's [max(a, b)]: the first argument unless the second is
    strictly greater. *)
Definition max (a b : value) : value := if ltb a b then b else a.

(** Python's [min(a, b)]: the first argument unless the second is
    strictly smaller. *)
Definition min (a b : value) : value := if ltb b a then b else a.

(** [-1 * a] *)
Definition neg (a : value) : value :=
  match a with
  | NegInf => PosInf
  | Fin z => Fin (- z)
  | PosInf => NegInf
  end.

(** The order as propositions. *)
Definition le (a b : value) : Prop :=
  match a, b with
  | NegInf, _ => True
  | Fin _, NegInf => False
  | Fin x, Fin y => x <= y
  | Fin _, PosInf => True
  | PosInf, PosInf => True
  | PosInf, _ => False
  end.

Definition lt (a b : value) : Prop :=
  match a, b with
  | NegInf, NegInf => False
  | NegInf, _ => True
  | Fin _, NegInf => False
  | Fin x, Fin y => x < y
  | Fin _, PosInf => True
  | PosInf, _ => False
  end.

(** Largest and smallest of a list of values, [-inf] and [+inf] for the
    empty list. *)
Definition maximum (l : list value) : value := foldr max NegInf l.
Definition minimum (l : list value) : value := foldr min PosInf l.

End Value.

Infix "<=?v" := Value.leb (at level 70, no associativity).
Infix "<?v" := Value.ltb (at level 70, no associativity).
Infix ">=?v" := Value.geb (at level 70, no associativity).
Infix "<=v" := Value.le (at level 70, no associativity).
Infix "<v" := Value.lt (at level 70, no associativity).

(** Decides goals about the order on [value] by cases on every value in
    sight. *)
Ltac value_cases :=
  repeat match goal with
         | v : value |- _ => destruct v
         end;
  unfold Value.geb, Value.gtb, Value.max, Value.min in *;
  cbn in *;
  repeat match goal with
         | |- context [?x <? ?y] => destruct (Z.ltb_spec x y)
         | H : context [?x <? ?y] |- _ => destruct (Z.ltb_spec x y)
         | |- context [?x <=? ?y] => destruct (Z.leb_spec x y)
         | H : context [?x <=? ?y] |- _ => destruct (Z.leb_spec x y)
         end;
  cbn in *; try congruence; try lia; try (f_equal; lia).

(** ** The game environment

    The state object the agent is handed.  Only the capabilities the
    agent calls are listed; how a concrete game implements them is not
    the agent's business. *)

Record Game : Type := mkGame {
  state : Type;
  action : Type;
  loc : Type;
  (** [state.actions()] *)
  actions : state -> list action;
  (** [state.actions(i)], the one-argument call made by
      [custom_heuristic] *)
  actions_of : state -> Z -> list action;
  (** [state.result(a)] *)
  result : state -> action -> state;
  (** [state.terminal_test()] *)
  terminal_test : state -> bool;
  (** [state.utility(player_id)] *)
  utility : state -> Z -> value;
  (** [state.ply_count] *)
  ply_count : state -> Z;
  (** [state.locs[i]] *)
  locs : state -> Z -> loc;
  (** [state.liberties(loc)] *)
  liberties : state -> loc -> list loc;
  (** [loc == action], the comparison behind [move in opp_moves] *)
  loc_is_action : loc -> action -> bool
}.

Arguments actions {_} _.
Arguments actions_of {_} _ _.
Arguments result {_} _ _.
Arguments terminal_test {_} _.
Arguments utility {_} _ _.
Arguments ply_count {_} _.
Arguments locs {_} _ _.
Arguments liberties {_} _ _.
Arguments loc_is_action {_} _ _.

(** What a driver hands back: an action of the game, or the constant
    tuple [(-1, -1)] that [best_move] is initialised with. *)
Inductive move (A : Type) : Type :=
| NoMove
| Move (a : A).
Arguments NoMove {A}.
Arguments Move {A} a.

(** ** Heuristics *)

Section Heuristics.
Context {G : Game}.
(** [choice.player_id]: the agent's own player id (the methods name
    their receiver [choice]). *)
Variable player_id : Z.

(** [len(x)] as a Python int. *)
Definition len {A} (l : list A) : Z := Z.of_nat (length l).

(** [score]:
<<
  own_loc = state.locs[choice.player_id]
  opp_loc = state.locs[1 - choice.player_id]
  own_liberties = state.liberties(own_loc)
  opp_liberties = state.liberties(opp_loc)
  return len(own_liberties) - len(opp_liberties)
>> *)
Definition score (s : state G) : Z :=
  let own_loc := locs s player_id in
  let opp_loc := locs s (1 - player_id) in
  let own_liberties := liberties s own_loc in
  let opp_liberties := liberties s opp_loc in
  len own_liberties - len opp_liberties.

(** [score2]:
<<
  own_loc = state.locs[choice.player_id]
  own_liberties = state.liberties(own_loc)
  return len(own_liberties)
>> *)
Definition score2 (s : state G) : Z :=
  let own_loc := locs s player_id in
  let own_liberties := liberties s own_loc in
  len own_liberties.

(** [move in opp_moves] *)
Definition loc_in (l : loc G) (acts : list (action G)) : bool :=
  existsb (loc_is_action l) acts.

(** [custom_heuristic]:
<<
  if state.terminal_test(): return state.utility(choice.player_id)
  score = 0.0
  move = state.locs[choice.player_id]
  opp_moves = state.actions(1 - choice.player_id)
  if move in opp_moves: score += 5
  own_moves = len(state.actions(choice.player_id))
  opp_moves = len(state.actions(1 - choice.player_id))
  score += int(own_moves - opp_moves)
  return score
>>
    [int] of a Python int is that int; the float [0.0] only carries
    integers here. *)
Definition custom_heuristic (s : state G) : value :=
  if terminal_test s then utility s player_id
  else
    let score0 := 0 in
    let move := locs s player_id in
    let opp_moves := actions_of s (1 - player_id) in
    let score1 := if loc_in move opp_moves then score0 + 5 else score0 in
    let own_moves := len (actions_of s player_id) in
    let opp_moves := len (actions_of s (1 - player_id)) in
    Fin (score1 + (own_moves - opp_moves)).

(** The bonus [custom_heuristic] adds when the player's location is
    among the opponent's moves. *)
Definition chase_bonus (s : state G) : Z :=
  if loc_in (locs s player_id) (actions_of s (1 - player_id)) then 5 else 0.

End Heuristics.

(** ** Minimax with alpha-beta pruning

    Python recursion is modelled with a [fuel] counter that every call
    of [min_value] / [max_value] decrements: [None] means the counter ran
    out, never a Python result.  [depth] stays the Python int it is. *)

Section Search.
Context {G : Game}.
Variable player_id : Z.

(** The [for a in state.actions()] loop of [min_value]:
<<
    v = min(v, choice.max_value(state.result(a), alpha, beta, depth - 1))
    if v <= alpha: return v
    beta = min(beta, v)
>>
    followed by [return v].  [eval] is the recursive call. *)
Fixpoint min_loop (eval : state G -> value -> value -> option value)
    (s : state G) (alpha : value) (acts : list (action G)) (v beta : value)
    : option value :=
  match acts with
  | [] => Some v
  | a :: rest =>
      match eval (result s a) alpha beta with
      | None => None
      | Some r =>
          let v := Value.min v r in
          if v <=?v alpha then Some v
          else min_loop eval s alpha rest v (Value.min beta v)
      end
  end.

(** The [for a in state.actions()] loop of [max_value]:
<<
    v = max(v, choice.min_value(state.result(a), alpha, beta, depth - 1))
    if v >= beta: return v
    alpha = max(alpha, v)
>>
    followed by [return v]. *)
Fixpoint max_loop (eval : state G -> value -> value -> option value)
    (s : state G) (beta : value) (acts : list (action G)) (v alpha : value)
    : option value :=
  match acts with
  | [] => Some v
  | a :: rest =>
      match eval (result s a) alpha beta with
      | None => None
      | Some r =>
          let v := Value.max v r in
          if v >=?v beta then Some v
          else max_loop eval s beta rest v (Value.max alpha v)
      end
  end.

(** [min_value] and [max_value]:
<<
    if state.terminal_test(): return state.utility(choice.player_id)
    if depth <= 0: return choice.score(state)
    v = float("inf")            # float("-inf") in max_value
    for a in state.actions(): ...
    return v
>> *)
Fixpoint min_value (fuel : nat) (s : state G) (alpha beta : value) (depth : Z)
    {struct fuel} : option value :=
  match fuel with
  | O => None
  | S fuel' =>
      if terminal_test s then Some (utility s player_id)
      else if depth <=? 0 then Some (Fin (score player_id s))
      else
        min_loop (fun s' a b => max_value fuel' s' a b (depth - 1))
          s alpha (actions s) PosInf beta
  end
with max_value (fuel : nat) (s : state G) (alpha beta : value) (depth : Z)
    {struct fuel} : option value :=
  match fuel with
  | O => None
  | S fuel' =>
      if terminal_test s then Some (utility s player_id)
      else if depth <=? 0 then Some (Fin (score player_id s))
      else
        max_loop (fun s' a b => min_value fuel' s' a b (depth - 1))
          s beta (actions s) NegInf alpha
  end.

(** The local variables of a driver's loop. *)
Record frame : Type := mkFrame {
  f_alpha : value;
  f_beta : value;
  best_score : value;
  best_move : move (action G)
}.

(** [alpha = float("-inf"); beta = float("inf");
    best_score = float("-inf"); best_move = (-1, -1)] *)
Definition frame0 : frame := mkFrame NegInf PosInf NegInf NoMove.

(** The root loop of [alpha_beta_search]:
<<
    v = choice.min_value(state.result(a), alpha, beta, depth - 1)
    alpha = max(alpha, v)
    if v >= best_score:
        best_score = v
        best_move = a
>> *)
Fixpoint ab_loop (eval : state G -> value -> value -> option value)
    (s : state G) (acts : list (action G)) (f : frame) : option frame :=
  match acts with
  | [] => Some f
  | a :: rest =>
      match eval (result s a) (f_alpha f) (f_beta f) with
      | None => None
      | Some v =>
          let alpha := Value.max (f_alpha f) v in
          if v >=?v best_score f
          then ab_loop eval s rest (mkFrame alpha (f_beta f) v (Move a))
          else ab_loop eval s rest
                 (mkFrame alpha (f_beta f) (best_score f) (best_move f))
      end
  end.

(** The frame [alpha_beta_search] ends its loop with. *)
Definition alpha_beta_frame (fuel : nat) (s : state G) (depth : Z)
    : option frame :=
  ab_loop (fun s' a b => min_value fuel s' a b (depth - 1))
    s (actions s) frame0.

(** [alpha_beta_search(choice, state, depth=3)]: the loop above, then
    [return best_move]. *)
Definition alpha_beta_search (fuel : nat) (s : state G) (depth : Z)
    : option (move (action G)) :=
  option_map best_move (alpha_beta_frame fuel s depth).

(** What [NegamaxAlphaBeta] returns: a number on its first [return], the
    best move on its last. *)
Inductive negamax_result : Type :=
| Utility (v : value)
| Best (m : move (action G)).

(** The root loop of [NegamaxAlphaBeta]:
<<
    v = 1 * choice.min_value(state.result(a), -1*alpha, -1*beta, depth - 1)
    alpha = max(alpha, v)
    if v >= best_score:
        best_score = v
        best_move = a
    if alpha >= beta: break
>> *)
Fixpoint negamax_loop (eval : state G -> value -> value -> option value)
    (s : state G) (acts : list (action G)) (f : frame) : option frame :=
  match acts with
  | [] => Some f
  | a :: rest =>
      match eval (result s a) (Value.neg (f_alpha f)) (Value.neg (f_beta f))
      with
      | None => None
      | Some v =>
          let alpha := Value.max (f_alpha f) v in
          let f' :=
            if v >=?v best_score f
            then mkFrame alpha (f_beta f) v (Move a)
            else mkFrame alpha (f_beta f) (best_score f) (best_move f) in
          if alpha >=?v f_beta f then Some f'
          else negamax_loop eval s rest f'
      end
  end.

(** [NegamaxAlphaBeta(choice, state, depth=3)]:
<<
    if depth == 0 or state.terminal_test():
        return state.utility(choice.player_id)
    for a in state.actions(): ...
    return best_move
>> *)
Definition NegamaxAlphaBeta (fuel : nat) (s : state G) (depth : Z)
    : option negamax_result :=
  if (depth =? 0) || terminal_test s then Some (Utility (utility s player_id))
  else
    option_map (fun f => Best (best_move f))
      (negamax_loop (fun s' a b => min_value fuel s' a b (depth - 1))
         s (actions s) frame0).

End Search.

(** The sense in which a result [r] of a search with window
    [(alpha, beta)] stands for the true value [t]: above [alpha] it is a
    lower bound, below [beta] an upper bound, strictly inside the window
    it is exact. *)
Definition bounds (alpha beta r t : value) : Prop :=
  (alpha <v r -> r <=v t) /\ (r <v beta -> t <=v r).

Definition sound {G : Game} (eval : state G -> value -> value -> option value)
    (tval : state G -> value) : Prop :=
  forall s a b r, eval s a b = Some r -> bounds a b r (tval s).

(** An evaluator of child states that always returns. *)
Definition total {G : Game}
    (eval : state G -> value -> value -> option value) : Prop :=
  forall s a b, exists r, eval s a b = Some r.

(** [depth=3], the default of both drivers. *)
Definition default_depth : Z := 3.

(** ** Exhaustive minimax, the reference the pruned search is compared to

    Follows the specification's words: the same game tree, the same
    cut-off depth, the same leaf evaluation, and no pruning; the driver
    keeps the first action whose value is strictly greatest. *)

Section Reference.
Context {G : Game}.
Variable player_id : Z.

(** Value of a state with the maximising player to move ([minimax_max])
    or the minimising one ([minimax_min]), [n] plies of look-ahead
    left. *)
Fixpoint minimax_max (n : nat) (s : state G) : value :=
  if terminal_test s then utility s player_id
  else
    match n with
    | O => Fin (score player_id s)
    | S n' =>
        Value.maximum (map (fun a => minimax_min n' (result s a)) (actions s))
    end
with minimax_min (n : nat) (s : state G) : value :=
  if terminal_test s then utility s player_id
  else
    match n with
    | O => Fin (score player_id s)
    | S n' =>
        Value.minimum (map (fun a => minimax_max n' (result s a)) (actions s))
    end.

(** Plies of look-ahead a Python [depth] stands for: none once it is
    zero or negative. *)
Definition plies (depth : Z) : nat := Z.to_nat depth.

(** Best score and first action reaching it (strict comparison), over
    the unpruned values of the root's children. *)
Definition minimax_root (s : state G) (depth : Z)
    : value * move (action G) :=
  foldl (fun (acc : value * move (action G)) a =>
           let v := minimax_min (plies (depth - 1)) (result s a) in
           if acc.1 <?v v then (v, Move a) else acc)
    (NegInf, NoMove) (actions s).

Definition minimax_search (s : state G) (depth : Z) : move (action G) :=
  (minimax_root s depth).2.

End Reference.

(** ** Monte Carlo tree search *)

(** The faults the model tells apart. *)
Inductive exn : Type :=
| IndexError
| ValueError.

(** Outcome of a call: a Python result, a Python exception, or [Stuck]
    when the model's own counter ran out or a reference dangles; [Stuck]
    is never a Python result. *)
Inductive res (A : Type) : Type :=
| Ret (a : A)
| Raise (e : exn)
| Stuck.
Arguments Ret {A} a.
Arguments Raise {A} e.
Arguments Stuck {A}.

(** Sequencing: an exception, or [Stuck], ends the computation. *)
#[global] Instance res_bind : MBind res := fun A B (k : A -> res B) m =>
  match m with
  | Ret a => k a
  | Raise e => Raise e
  | Stuck => Stuck
  end.

(** [seq.index(x)]: position of the first occurrence. *)
Fixpoint index_of (x : nat) (l : list nat) : option nat :=
  match l with
  | [] => None
  | y :: l' => if Nat.eqb x y then Some O else option_map S (index_of x l')
  end.

Section MCTS.
Context {G : Game}.

(** Modelled from the spec: [MCTS_Node], the tree node of module [mcts].
    The state it stands for, its parent (none for the root), its child
    nodes in the order they were expanded with the actions leading to
    them, a visit count and an accumulated reward total.  A fresh node
    has been visited once and has collected nothing.  Nodes live in a
    store and refer to each other by position, as Python objects do by
    reference. *)
Record MCTS_Node : Type := mkNode {
  node_state : state G;
  parent : option nat;
  children : list nat;
  children_actions : list (action G);
  visits : Z;
  reward : Z
}.

Abbreviation store := (list MCTS_Node).

(** Modelled from the spec: [MCTS_Node(state)]. *)
Definition new_node (s : state G) (p : option nat) : MCTS_Node :=
  mkNode s p [] [] 1 0.

(** Modelled from the spec: a node gains a child for one more action. *)
Definition add_child (nd : MCTS_Node) (c : nat) (a : action G) : MCTS_Node :=
  mkNode (node_state nd) (parent nd) (children nd ++ [c])
    (children_actions nd ++ [a]) (visits nd) (reward nd).

(** Modelled from the spec: backpropagation counts one more visit and
    adds the reward. *)
Definition update (nd : MCTS_Node) (r : Z) : MCTS_Node :=
  mkNode (node_state nd) (parent nd) (children nd) (children_actions nd)
    (visits nd + 1) (reward nd + r).

(** The upper-confidence score is floating point ([sqrt], [log], the
    exploration factor); the choice it leads to is a parameter: from the
    parent's visit count and the children's (reward, visits) to the
    position of a child. *)
Variable uct_argmax : Z -> list (Z * Z) -> nat.

(** The random playout is a parameter as well: the reward of the [i]-th
    rollout started from a state. *)
Variable rollout : nat -> state G -> Z.

Definition stats (h : store) (c : nat) : Z * Z :=
  match h !! c with
  | Some nd => (reward nd, visits nd)
  | None => (0, 0)
  end.

(** Modelled from the spec: [best_child], the child with the highest
    upper-confidence score.  Without children there is nothing to
    maximise over. *)
Definition best_child (h : store) (nd : MCTS_Node) : res nat :=
  match children nd with
  | [] => Raise ValueError
  | cs =>
      match cs !! uct_argmax (visits nd) (map (stats h) cs) with
      | Some c => Ret c
      | None => Raise IndexError
      end
  end.

(** Modelled from the spec: [tree_policy].  Descend from [n]; stop at a
    terminal state; at a node with an unexplored action expand the next
    one and stop at the new child; otherwise move to the best child. *)
Fixpoint tree_policy (fuel : nat) (h : store) (n : nat)
    : res (store * option nat) :=
  match fuel with
  | O => Stuck
  | S fuel' =>
      match h !! n with
      | None => Stuck
      | Some nd =>
          if terminal_test (node_state nd) then Ret (h, Some n)
          else
            match actions (node_state nd) !! length (children_actions nd) with
            | Some a =>
                let c := length h in
                let child := new_node (result (node_state nd) a) (Some n) in
                Ret (<[n := add_child nd c a]> h ++ [child], Some c)
            | None =>
                c ← best_child h nd;
                tree_policy fuel' h c
            end
      end
  end.

(** Modelled from the spec: [default_policy(state)], the reward of a
    random playout. *)
Definition default_policy (i : nat) (s : state G) : Z := rollout i s.

(** Modelled from the spec: [backup(node, reward)].  Walk from the node
    up to the root; every node on the way is visited once more and adds
    the reward, whose sign flips at each level. *)
Fixpoint backup (fuel : nat) (h : store) (n : nat) (r : Z) : res store :=
  match fuel with
  | O => Stuck
  | S fuel' =>
      match h !! n with
      | None => Stuck
      | Some nd =>
          let h' := <[n := update nd r]> h in
          match parent nd with
          | None => Ret h'
          | Some p => backup fuel' h' p (- r)
          end
      end
  end.

(** One pass of the loop of [mcts]:
<<
    child = tree_policy(root)
    if not child: continue
    reward = default_policy(child.state)
    backup(child, reward)
>> *)
Definition mcts_iteration (h : store) (root : nat) (i : nat) : res store :=
  '(h1, child) ← tree_policy (S (length h)) h root;
  match child with
  | None => Ret h1
  | Some c =>
      match h1 !! c with
      | None => Stuck
      | Some cn =>
          let reward := default_policy i (node_state cn) in
          backup (length h1) h1 c reward
      end
  end.

(** [for _ in range(iter_limit)] *)
Fixpoint mcts_loop (iters : list nat) (h : store) (root : nat) : res store :=
  match iters with
  | [] => Ret h
  | i :: rest =>
      h' ← mcts_iteration h root i;
      mcts_loop rest h' root
  end.

(** [mcts(choice, state, iter_limit, FACTOR)]:
<<
    root = MCTS_Node(state)
    for _ in range(iter_limit): ...
    idx = root.children.index(best_child(root))
    return root.children_actions[idx]
>>
    [FACTOR] is not read by the body. *)
Definition mcts (s : state G) (iter_limit : Z) : res (action G) :=
  let root := O in
  h ← mcts_loop (seq 0 (Z.to_nat iter_limit)) [new_node s None] root;
  match h !! root with
  | None => Stuck
  | Some rn =>
      b ← best_child h rn;
      match index_of b (children rn) with
      | None => Raise ValueError
      | Some idx =>
          match children_actions rn !! idx with
          | Some a => Ret a
          | None => Raise IndexError
          end
      end
  end.

(** Modelled from the spec: the default of [iter_limit], which the
    specification's configuration surface gives as about 200. *)
Definition default_iter_limit : Z := 200.

(** [random.choice(seq)]: [seq[i]] for a draw [i] below [len(seq)];
    [r] is the raw draw.  An empty sequence raises. *)
Definition choice {A} (r : nat) (l : list A) : option A :=
  match l with
  | [] => None
  | _ => l !! (r mod length l)%nat
  end.

(** What [get_action] returns: the [None] that [queue.put] returned, or
    its local [best_move], which is still the empty list. *)
Inductive returned : Type :=
| PutResult
| BestMoveList.

(** [get_action(self, state)], with the queue as the list of actions put
    so far:
<<
    import random
    if state.ply_count < 2:
        return self.queue.put(random.choice(state.actions()))
    best_move = []
    try:
        while True:
            move = self.queue.put(self.mcts(state))
            if move == None: return best_move
            best_move = move
    except:
        return best_move
>>
    [queue.put] returns [None], so the loop body runs once. *)
Definition get_action (r : nat) (queue : list (action G)) (s : state G)
    : res (list (action G) * returned) :=
  if ply_count s <? 2 then
    match choice r (actions s) with
    | Some a => Ret (queue ++ [a], PutResult)
    | None => Raise IndexError
    end
  else
    match mcts s default_iter_limit with
    | Ret a => Ret (queue ++ [a], BestMoveList)
    | Raise _ => Ret (queue, BestMoveList)
    | Stuck => Stuck
    end.

(** *** Bookkeeping for the properties of the tree

    None of this is executed by the agent; it names what the properties
    below speak about. *)

(** The nodes [backup] walks through from [n]: the node, its parent, and
    so on up to the root. *)
Fixpoint root_path (fuel : nat) (h : store) (n : nat) : list nat :=
  match fuel with
  | O => []
  | S fuel' =>
      match h !! n with
      | None => []
      | Some nd =>
          n :: match parent nd with
               | None => []
               | Some q => root_path fuel' h q
               end
      end
  end.

(** A completed backpropagation: the path it walked and the reward of
    the rollout it carried. *)
Definition rollout_record : Type := list nat * Z.

(** [mcts_iteration] once more, also reporting the backpropagation it
    completed, if any. *)
Definition mcts_iteration_traced (h : store) (root : nat) (i : nat)
    : res (store * list rollout_record) :=
  '(h1, child) ← tree_policy (S (length h)) h root;
  match child with
  | None => Ret (h1, [])
  | Some c =>
      match h1 !! c with
      | None => Stuck
      | Some cn =>
          let reward := default_policy i (node_state cn) in
          h2 ← backup (length h1) h1 c reward;
          Ret (h2, [(root_path (length h1) h1 c, reward)])
      end
  end.

(** [mcts_loop] once more, collecting the records, newest first. *)
Fixpoint mcts_trace (iters : list nat) (h : store)
    (log : list rollout_record) (root : nat)
    : res (store * list rollout_record) :=
  match iters with
  | [] => Ret (h, log)
  | i :: rest =>
      '(h', new) ← mcts_iteration_traced h root i;
      mcts_trace rest h' (new ++ log) root
  end.

(** 1 when the backpropagation [e] went through node [k]. *)
Definition hit (k : nat) (e : rollout_record) : Z :=
  match index_of k e.1 with
  | Some _ => 1
  | None => 0
  end.

(** What the backpropagation [e] added to the total of node [k]: the
    reward at the node it started from, the opposite one level up, and
    so on; nothing off its path. *)
Definition share (k : nat) (e : rollout_record) : Z :=
  match index_of k e.1 with
  | Some j => if Nat.even j then e.2 else - e.2
  | None => 0
  end.

(** Number of recorded backpropagations through [k], and what they
    added to its total. *)
Definition rollouts_through (log : list rollout_record) (k : nat) : Z :=
  foldr (fun e acc => hit k e + acc) 0 log.

Definition reward_shares (log : list rollout_record) (k : nat) : Z :=
  foldr (fun e acc => share k e + acc) 0 log.

(** Every parent was created before its children. *)
Definition parents_older (h : store) : Prop :=
  forall n nd q, h !! n = Some nd -> parent nd = Some q -> (q < n)%nat.

(** The records only mention nodes of the store. *)
Definition log_in_store (h : store) (log : list rollout_record) : Prop :=
  forall e k, e ∈ log -> k ∈ e.1 -> (k < length h)%nat.

(** The counters of every node agree with the records. *)
Definition counters_agree (h : store) (log : list rollout_record) : Prop :=
  forall k nd, h !! k = Some nd ->
    visits nd = 1 + rollouts_through log k
    /\ reward nd = reward_shares log k.

(** The claim that no total ever goes down, for one pass of the loop. *)
Definition totals_never_decrease : Prop :=
  forall h i h' k nd nd',
    mcts_iteration h O i = Ret h' ->
    h !! k = Some nd -> h' !! k = Some nd' ->
    reward nd <= reward nd'.

(** The store of a search whose root never gets a child. *)
Definition lone_root (s : state G) (h : store) : Prop :=
  exists v r, h = [mkNode s None [] [] v r].

(** A node after a backpropagation along [pth] carrying [r]: updated
    with the reward or its opposite when it lies on the path, left alone
    otherwise. *)
Definition backed_up (pth : list nat) (r : Z) (k : nat) (nd : MCTS_Node)
    : MCTS_Node :=
  match index_of k pth with
  | Some j => update nd (if Nat.even j then r else - r)
  | None => nd
  end.

(** [h1] is [h] after expanding one node: the node got one more child,
    and that child, [c], is the new last node of the store. *)
Definition expanded (h h1 : store) (c : nat) : Prop :=
  exists m nd a,
    h !! m = Some nd /\ c = length h
    /\ h1 = <[m := add_child nd (length h) a]> h
             ++ [new_node (result (node_state nd) a) (Some m)].

(** Every child is a node of the store, created after its parent. *)
Definition children_younger (h : store) : Prop :=
  forall n nd c, h !! n = Some nd -> c ∈ children nd ->
    (n < c < length h)%nat.

(** What the loop of [mcts] maintains. *)
Definition tree_invariant (h : store) (log : list rollout_record) : Prop :=
  (0 < length h)%nat /\ parents_older h /\ children_younger h
  /\ log_in_store h log /\ counters_agree h log.

End MCTS.

(** ** A game written out as its tree

    Concrete states to run the agent on.  A position records whether the
    game is over there, the payoff of player 0 (player 1 gets the
    opposite: the game is zero-sum), how many liberties player 0 and
    player 1 have, the ply count and the positions one move away. *)

#[warnings="-register-all"]
Inductive position : Type :=
| Pos (over : bool) (payoff : Z) (lib0 lib1 : nat) (ply : Z)
      (next : list position).

Definition pos_over (p : position) : bool :=
  match p with Pos o _ _ _ _ _ => o end.
Definition pos_payoff (p : position) : Z :=
  match p with Pos _ u _ _ _ _ => u end.
Definition pos_libs (p : position) (i : Z) : nat :=
  match p with Pos _ _ l0 l1 _ _ => if i =? 0 then l0 else l1 end.
Definition pos_ply (p : position) : Z :=
  match p with Pos _ _ _ _ k _ => k end.
Definition pos_next (p : position) : list position :=
  match p with Pos _ _ _ _ _ ps => ps end.

(** Actions are the positions of the successors; player [i] stands on
    cell [i]; a player has as many follow-up moves as liberties. *)
Definition TreeGame : Game :=
  mkGame position nat Z
    (fun p => seq 0 (length (pos_next p)))
    (fun p i => replicate (pos_libs p i) O)
    (fun p a => nth a (pos_next p) p)
    pos_over
    (fun p i => if i =? 0 then Fin (pos_payoff p) else Fin (- pos_payoff p))
    pos_ply
    (fun _ i => i)
    (fun p l => replicate (pos_libs p l) 0)
    (fun l a => l =? Z.of_nat a).

(** A finished game worth [u] to player 0. *)
Definition leaf (u : Z) : position := Pos true u 0 0 4 [].
(** A position in play with the given successors. *)
Definition fork (ps : list position) : position := Pos false 0 0 0 4 ps.
(** A position in play, no successors listed, with the given liberties. *)
Definition quiet (l0 l1 : nat) : position := Pos false 0 l0 l1 4 [].

(** The aggressive heuristic in the specification's words: the exact
    utility at a terminal state; otherwise zero, plus 2 when the player's
    location is among the opponent's moves, plus the ratio of the own
    count to [max(opponent count, 1)], cut to an integer. *)
Definition aggressive_by_ratio {G : Game} (player_id : Z) (s : state G)
    : value :=
  if terminal_test s then utility s player_id
  else
    let bonus :=
      if loc_in (locs s player_id) (actions_of s (1 - player_id))
      then 2 else 0 in
    let own := len (actions_of s player_id) in
    let opp := len (actions_of s (1 - player_id)) in
    Fin (bonus + Z.quot own (Z.max opp 1)).

(** The trees the agent is run on below.  Their leaves are positions in
    play at the search horizon, told apart by their liberties: for
    player 0, [quiet a b] scores [a - b]. *)

(** Two moves for the root; after the first the opponent has one reply,
    scoring 3; after the second, replies scoring 3 and 1. *)
Definition tied_bound_tree : position :=
  fork [fork [quiet 3 0]; fork [quiet 3 0; quiet 1 0]].

(** Two moves for the root, with opponent replies scoring 5 and 1, and 3
    and 3. *)
Definition two_reply_tree : position :=
  fork [fork [quiet 5 0; quiet 1 0]; fork [quiet 3 0; quiet 3 0]].

(** Two moves that lead to positions with the same score, 0. *)
Definition tie_tree : position := fork [quiet 2 2; quiet 1 1].

(** A single move, which wins. *)
Definition one_move_tree : position := fork [leaf 1].

(** Two moves, each answered by moves that end the game. *)
Definition playout_tree : position :=
  fork [fork [leaf 1; leaf (-1)]; fork [leaf 1]].

(** A selection rule and a rollout for running [mcts] on the trees: the
    first child, and the payoff of the state for player 0. *)
Definition first_child (_ : Z) (_ : list (Z * Z)) : nat := O.
Definition payoff_rollout (_ : nat) (s : position) : Z := pos_payoff s.

(** A position of the first ply with three moves to choose from. *)
Definition opening : position :=
  Pos false 0 3 3 0 [quiet 2 3; quiet 1 3; quiet 3 3].

(** *** The shape of the search tree *)

Section MCTSShape.
Context {G : Game}.

Abbreviation store := (list (@MCTS_Node G)).

(** The tree follows the game: a node's children stand for the first
    actions of its state, in the order [actions()] gives them, and each
    child holds the state its action leads to and points back to the
    node. *)
Definition mirrors_game (h : store) : Prop :=
  forall n nd, h !! n = Some nd ->
    length (children nd) = length (children_actions nd)
    /\ children_actions nd
       = take (length (children_actions nd)) (actions (node_state nd))
    /\ forall i c a,
         children nd !! i = Some c -> children_actions nd !! i = Some a ->
         exists cn, h !! c = Some cn
                    /\ node_state cn = result (node_state nd) a
                    /\ parent cn = Some n.


(** Node 0 is the root: it holds the state the search started from, and
    it is the only node without a parent. *)
Definition rooted_at (s : state G) (h : store) : Prop :=
  (exists rn, h !! O = Some rn /\ node_state rn = s /\ parent rn = None)
  /\ forall n nd, h !! n = Some nd -> parent nd = None -> n = O.

(** [expanded], also saying which action was expanded: the next one of
    the node's state that has no child yet. *)
Definition expanded_next (h h1 : store) (c : nat) : Prop :=
  exists m nd a,
    h !! m = Some nd /\ c = length h
    /\ actions (node_state nd) !! length (children_actions nd) = Some a
    /\ h1 = <[m := add_child nd (length h) a]> h
             ++ [new_node (result (node_state nd) a) (Some m)].

(** What the loop of [mcts] maintains besides the counters. *)
Definition shape_invariant (s : state G) (h : store)
    (log : list rollout_record) : Prop :=
  mirrors_game h /\ rooted_at s h /\ forall e, e ∈ log -> O ∈ e.1.

End MCTSShape.

(** * The constraint-satisfaction notebook

    AIND-Constraint_Satisfaction.ipynb states four puzzles as constraints
    for Z3 and asks it for a model.  The cells are embedded as the
    constraint sets they build; Z3's Python API is read with the meaning
    its documentation gives it: [Int(name)] is an integer constant known
    by its name, an assignment gives every name an integer,
    [Distinct] holds when its arguments differ pairwise, [PbEq] when the
    weights of its true arguments add up to [k], [If] is a conditional
    term, [Solver.add] collects constraints, and [check()] answers [sat]
    when some assignment satisfies all of them. *)

Module Notebook.

Definition assignment : Type := string -> Z.
Definition term : Type := assignment -> Z.
Definition constraint : Type := assignment -> bool.

Definition Int (x : string) : term := fun m => m x.

Fixpoint distinct (l : list Z) : bool :=
  match l with
  | [] => true
  | x :: l' => forallb (fun y => negb (x =? y)) l' && distinct l'
  end.

Definition Distinct (ts : list term) : constraint :=
  fun m => distinct (map (fun t => t m) ts).

Definition PbEq (args : list (constraint * Z)) (k : Z) : constraint :=
  fun m =>
    foldr (fun (bw : constraint * Z) acc =>
             (if bw.1 m then bw.2 else 0) + acc) 0 args =? k.

Definition If (c : constraint) (x y : term) : term :=
  fun m => if c m then x m else y m.

Definition Solver : Type := list constraint.

Definition add (s : Solver) (cs : list constraint) : Solver := s ++ cs.

Definition holds (m : assignment) (s : Solver) : bool :=
  forallb (fun c => c m) s.

(** [s.check() == sat] *)
Definition sat (s : Solver) : Prop := exists m, holds m s = true.

(** The assignment a list of bindings stands for: the first binding of
    a name counts, a name without binding gets 0. *)
Fixpoint assign (l : list (string * Z)) : assignment :=
  fun x =>
    match l with
    | [] => 0
    | (y, v) :: l' => if String.eqb x y then v else assign l' x
    end.

(** [chain] of an unpacked list of lists *)
Definition chain {A} (ls : list (list A)) : list A := concat ls.

(** [range(n)] *)
Definition range (n : Z) : list nat := seq 0 (Z.to_nat n).

(** [enumerate(l)] *)
Definition enumerate {A} (l : list A) : list (nat * A) :=
  zip (seq 0 (length l)) l.

(** [zip] of an unpacked list of lists: the columns, as many as the
    shortest row has entries. *)
Fixpoint zip_star {A} (ls : list (list A)) : list (list A) :=
  match ls with
  | [] => []
  | [l] => map (fun x => [x]) l
  | l :: ls' => zip_with cons l (zip_star ls')
  end.

(** ** I. Cryptarithmetic: TWO + TWO = FOUR *)

Definition F : term := Int "F".
Definition O : term := Int "O".
Definition R : term := Int "R".
Definition T : term := Int "T".
Definition U : term := Int "U".
Definition W : term := Int "W".

Definition ca_solver : Solver :=
  let s := [] in
  let s := add s [fun m => 0 <=? F m; fun m => F m <=? 9] in
  let s := add s [fun m => 0 <=? O m; fun m => O m <=? 9] in
  let s := add s [fun m => 0 <=? R m; fun m => R m <=? 9] in
  let s := add s [fun m => 0 <=? T m; fun m => T m <=? 9] in
  let s := add s [fun m => 0 <=? U m; fun m => U m <=? 9] in
  let s := add s [fun m => 0 <=? W m; fun m => W m <=? 9] in
  let s := add s [fun m => negb (T m =? 0)] in
  let s := add s [fun m => negb (F m =? 0)] in
  let s := add s [Distinct [F; O; R; T; U; W]] in
  add s [fun m =>
           (T m + T m) * 10 ^ 2 + (W m + W m) * 10 ^ 1 + (O m + O m) * 10 ^ 0
           =? F m * 10 ^ 3 + O m * 10 ^ 2 + U m * 10 ^ 1 + R m * 10 ^ 0].

(** The letters in the order [F, O, R, T, U, W]. *)
Definition ca_letters (m : assignment) : list Z :=
  [F m; O m; R m; T m; U m; W m].

(** An assignment with the given digits for the letters (and 0 for
    every other name). *)
Definition ca_assignment (f o r t u w : Z) : assignment :=
  assign [("F", f); ("O", o); ("R", r); ("T", t); ("U", u); ("W", w)].

(** The sums TWO + TWO = FOUR in distinct digits without leading zero:
    734, 765, 836, 846, 867, 928 and 938. *)
Definition ca_solutions : list (list Z) :=
  [ [1; 4; 8; 7; 6; 3];
    [1; 5; 0; 7; 3; 6];
    [1; 6; 2; 8; 7; 3];
    [1; 6; 2; 8; 9; 4];
    [1; 7; 4; 8; 3; 6];
    [1; 8; 6; 9; 5; 2];
    [1; 8; 6; 9; 7; 3] ].

Definition digits : list Z := [0; 1; 2; 3; 4; 5; 6; 7; 8; 9].

Definition list_eqb (l1 l2 : list Z) : bool :=
  bool_decide (l1 = l2).

(** Every choice of [T], [W], [O], [U] that can be completed to a model
    (with [F = 1] and [R] read off the sum) is one of [ca_solutions]. *)
Definition ca_search : bool :=
  forallb (fun t => forallb (fun w => forallb (fun o => forallb (fun u =>
    let r := 200 * t + 20 * w + 2 * o - 1000 - 100 * o - 10 * u in
    implb (holds (ca_assignment 1 o r t u w) ca_solver)
          (existsb (list_eqb [1; o; r; t; u; w]) ca_solutions))
    digits) digits) digits) digits.

(** ** II. Map colouring: Australia in three colours *)

Definition colors : list (string * string) :=
  [("0", "Blue"); ("1", "Red"); ("2", "Green")]%string.

Definition WA : term := Int "WA".
Definition NT : term := Int "NT".
Definition SA : term := Int "SA".
Definition Q : term := Int "Q".
Definition NSW : term := Int "NSW".
Definition V : term := Int "V".

(** [x == y] *)
Definition same (x y : term) : constraint := fun m => x m =? y m.

Definition mc_solver : Solver :=
  let s := [] in
  let s := add s [fun m => 0 <=? WA m; fun m => WA m <=? 2] in
  let s := add s [fun m => 0 <=? NT m; fun m => NT m <=? 2] in
  let s := add s [fun m => 0 <=? SA m; fun m => SA m <=? 2] in
  let s := add s [fun m => 0 <=? Q m; fun m => Q m <=? 2] in
  let s := add s [fun m => 0 <=? NSW m; fun m => NSW m <=? 2] in
  let s := add s [fun m => 0 <=? V m; fun m => V m <=? 2] in
  let s := add s [fun m => 0 <=? T m; fun m => T m <=? 2] in
  let s := add s [PbEq [(same WA NT, 1); (same WA SA, 1)] 0] in
  let s := add s [PbEq [(same NT WA, 1); (same NT SA, 1); (same NT Q, 1)] 0] in
  let s := add s [PbEq [(same SA WA, 1); (same SA NT, 1); (same SA Q, 1);
                        (same SA NSW, 1); (same SA V, 1)] 0] in
  let s := add s [PbEq [(same Q NT, 1); (same Q SA, 1); (same Q NSW, 1)] 0] in
  let s := add s [PbEq [(same NSW SA, 1); (same NSW Q, 1);
                        (same NSW V, 1)] 0] in
  add s [PbEq [(same V SA, 1); (same V NSW, 1)] 0].

(** [d[k]] for a dict of strings, [None] for the [KeyError] of a
    missing key. *)
Fixpoint getitem (d : list (string * string)) (k : string) : option string :=
  match d with
  | [] => None
  | (k', v) :: d' => if String.eqb k' k then Some v else getitem d' k
  end.

(** [colors[model[x].as_string()]]: the colour name printed for a
    region. *)
Definition color_of (m : assignment) (x : term) : option string :=
  getitem colors (pretty (x m)).

(** The seven lines the report cell prints, [None] if a lookup
    raises. *)
Definition mc_report (m : assignment) : option (list string) :=
  mapM (color_of m) [WA; NT; SA; Q; NSW; V; T].

(** ** III. N queens *)

Definition Abs (x : term) : term :=
  If (fun m => x m >=? 0) x (fun m => - x m).

(** ['Q{}'.format(i)] *)
Definition queen_name (i : nat) : string := "Q" +:+ pretty i.

(** [Distinct] as a call on a Python list: without a single argument Z3
    has no expression to take its context from and raises
    [Z3Exception], here [None]. *)
Definition Distinct_call (ts : list term) : option constraint :=
  match ts with
  | [] => None
  | _ :: _ => Some (Distinct ts)
  end.

(** [nqueens(N)]: the solver it returns, [None] when it raises. *)
Definition nqueens (N : Z) : option Solver :=
  let nq_solver := [] in
  let queens := map (fun i => Int (queen_name i)) (range N) in
  let nq_solver :=
    add nq_solver
      (chain (map (fun q => [fun m => 0 <=? q m; fun m => q m <? N])
                  queens)) in
  different_rows ← Distinct_call queens;
  let nq_solver := add nq_solver [different_rows] in
  Some
    (foldl (fun s (iq1 : nat * term) =>
              foldl (fun s (jq2 : nat * term) =>
                       if Nat.eqb iq1.1 jq2.1 then s
                       else add s [fun m =>
                                     negb (Abs (fun m => iq1.2 m - jq2.2 m) m
                                           =? Z.abs (Z.of_nat iq1.1
                                                     - Z.of_nat jq2.1))])
                    s (enumerate queens))
           nq_solver (enumerate queens)).

Definition sizes : list Z := [8; 16; 32; 64].

(** The row an assignment gives queen [i] (the queen of column [i]). *)
Definition queen (m : assignment) (i : nat) : Z := m (queen_name i).

(** The assignment that puts queen [i] on the [i]-th row of the list
    (and gives 0 to every other name). *)
Definition placement (rows : list Z) : assignment :=
  assign (zip (map queen_name (seq 0 (length rows))) rows).

(** Odd rows first, then even rows. *)
Definition staircase (N : Z) : list Z :=
  map (fun i => let i := Z.of_nat i in
                if 2 * i + 1 <? N then 2 * i + 1 else 2 * i - N)
      (range N).

Definition queens8 : list Z := [1; 3; 5; 7; 2; 0; 6; 4].

Definition queens32 : list Z :=
  [1; 3; 5; 7; 9; 11; 13; 15; 17; 19; 21; 23; 25; 27; 29; 31;
   2; 0; 6; 8; 10; 12; 14; 16; 18; 20; 22; 24; 26; 28; 30; 4].

(** ** IV. Sudoku *)

Definition rows : string := "ABCDEFGHI".
Definition cols : string := "123456789".

(** ["{}{}".format(r, c)] *)
Definition box_name (r c : Ascii.ascii) : string :=
  String r (String c EmptyString).

Definition boxes : list (list term) :=
  map (fun r => map (fun c => Int (box_name r c))
                    (String.list_ascii_of_string cols))
      (String.list_ascii_of_string rows).

(** [boxes[i][j]]; all indices the notebook uses are in range. *)
Definition box (i j : nat) : term :=
  nth j (nth i boxes []) (fun _ => 0).

Definition board : list (list Z) :=
  [ [0; 0; 3; 0; 2; 0; 6; 0; 0];
    [9; 0; 0; 3; 0; 5; 0; 0; 1];
    [0; 0; 1; 8; 0; 6; 4; 0; 0];
    [0; 0; 8; 1; 0; 2; 9; 0; 0];
    [7; 0; 0; 0; 0; 0; 0; 0; 8];
    [0; 0; 6; 7; 0; 8; 2; 0; 0];
    [0; 0; 2; 6; 0; 9; 5; 0; 0];
    [8; 0; 0; 2; 0; 3; 0; 0; 9];
    [0; 0; 5; 0; 1; 0; 3; 0; 0] ].

(** [board[i][j]] *)
Definition hint (i j : nat) : Z := nth j (nth i board []) 0.

Definition s_solver : Solver :=
  let s := [] in
  let s := add s (chain (map (fun b => [fun m => 1 <=? b m;
                                        fun m => b m <=? 9])
                             (chain boxes))) in
  let s := add s (map Distinct boxes) in
  let s := add s (map Distinct (zip_star boxes)) in
  let s :=
    add s (flat_map (fun j => map (fun i =>
             Distinct (flat_map (fun ii => map (fun jj =>
                         box (i + ii) (j + jj)) (range 3)) (range 3)))
             [0; 3; 6]%nat) [0; 3; 6]%nat) in
  add s (flat_map (fun i => flat_map (fun j =>
           if hint i j =? 0 then []
           else [fun m => box i j m =? hint i j]) (range 9)) (range 9)).

(** The grid the notebook prints. *)
Definition printed : list (list Z) :=
  [ [4; 8; 3; 9; 2; 1; 6; 5; 7];
    [9; 6; 7; 3; 4; 5; 8; 2; 1];
    [2; 5; 1; 8; 7; 6; 4; 9; 3];
    [5; 4; 8; 1; 3; 2; 9; 7; 6];
    [7; 2; 9; 5; 6; 4; 1; 3; 8];
    [1; 3; 6; 7; 9; 8; 2; 4; 5];
    [3; 7; 2; 6; 8; 9; 5; 1; 4];
    [8; 1; 4; 2; 5; 3; 7; 6; 9];
    [6; 9; 5; 4; 1; 7; 3; 8; 2] ].

(** The assignment that writes a grid into the boxes. *)
Definition grid (g : list (list Z)) : assignment :=
  assign (zip (flat_map (fun r => map (box_name r)
                                      (String.list_ascii_of_string cols))
                        (String.list_ascii_of_string rows))
              (concat g)).

(** *** The puzzle box by box

    The same constraints, listed by cell and by unit; used to show that
    the printed grid is the only solution. *)

Definition cell : Type := nat * nat.

Definition cells : list cell :=
  flat_map (fun i => map (pair i) (seq 0 9)) (seq 0 9).

(** [model[boxes[i][j]]] *)
Definition box_value (m : assignment) (c : cell) : Z := box c.1 c.2 m.

(** The nine rows, the nine columns and the nine blocks, in the order of
    their [Distinct] constraints. *)
Definition units : list (list cell) :=
  map (fun i => map (pair i) (seq 0 9)) (seq 0 9)
  ++ map (fun j => map (fun i => (i, j)) (seq 0 9)) (seq 0 9)
  ++ flat_map (fun j => map (fun i =>
       flat_map (fun ii => map (fun jj => (i + ii, j + jj)%nat) (seq 0 3))
                (seq 0 3)) [0; 3; 6]%nat) [0; 3; 6]%nat.

Definition s_solver_by_cell : Solver :=
  flat_map (fun c => [fun m => 1 <=? box_value m c;
                      fun m => box_value m c <=? 9]) cells
  ++ map (fun u => Distinct (map (fun c m => box_value m c) u)) units
  ++ flat_map (fun c : cell =>
       if hint c.1 c.2 =? 0 then []
       else [fun m => box_value m c =? hint c.1 c.2]) cells.

Definition cell_eqb (c d : cell) : bool :=
  Nat.eqb c.1 d.1 && Nat.eqb c.2 d.2.

(** Two different cells of one unit. *)
Definition peers (c d : cell) : bool :=
  if cell_eqb c d then false
  else existsb (fun u => if existsb (cell_eqb c) u
                         then existsb (cell_eqb d) u else false) units.

(** The values still possible for each cell, row by row. *)
Definition candidates : Type := list (list Z).

Definition start : candidates :=
  map (fun c : cell =>
         if hint c.1 c.2 =? 0 then [1; 2; 3; 4; 5; 6; 7; 8; 9]
         else [hint c.1 c.2]) cells.

(** Some peer of [d] has [v] as its only candidate. *)
Definition taken (cand : candidates) (d : cell) (v : Z) : bool :=
  existsb (fun cw : cell * list Z =>
             match cw.2 with
             | [w] => if w =? v then peers cw.1 d else false
             | _ => false
             end) (zip cells cand).

(** One round of elimination: no cell keeps a value that is settled for
    one of its peers. *)
Definition eliminate (cand : candidates) : candidates :=
  zip_with (fun d vs => List.filter (fun v => negb (taken cand d v)) vs)
           cells cand.

Definition fits (m : assignment) (cand : candidates) : Prop :=
  Forall2 (fun c vs => In (box_value m c) vs) cells cand.

End Notebook.

(** * Properties *)

(** ** Heuristics *)

Section HeuristicFacts.
Context {G : Game}.

Lemma score_swap (p : Z) (s : state G) : score p s = - score (1 - p) s.
Proof.
  unfold score. replace (1 - (1 - p)) with p by lia. lia.
Qed.

(** C5.  On a state that is not terminal, the liberty difference seen by
    player [A] is the negation of the one seen by the other player [B]
    (player ids are 0 and 1, so [B = 1 - A]). *)
Theorem score_antisymmetric (s : state G) (A B : Z) :
  terminal_test s = false -> A + B = 1 -> score A s = - score B s.
Proof.
  intros _ HAB. replace B with (1 - A) by lia. apply score_swap.
Qed.

(** C4.  At a terminal state [custom_heuristic], the one heuristic that
    looks at [terminal_test], returns the utility of the state for the
    player, unchanged. *)
Theorem custom_heuristic_terminal_exact (p : Z) (s : state G) :
  terminal_test s = true -> custom_heuristic p s = utility s p.
Proof.
  intros Hterm. unfold custom_heuristic. rewrite Hterm. reflexivity.
Qed.

(** [custom_heuristic] divides nowhere: away from terminal states it is
    the bonus plus the difference of the two move counts, whatever the
    opponent's count; when that count is zero the difference is the own
    count. *)
Lemma custom_heuristic_is_difference (p : Z) (s : state G) :
  terminal_test s = false ->
  custom_heuristic p s
  = Fin (chase_bonus p s
         + (len (actions_of s p) - len (actions_of s (1 - p))))
  /\ (len (actions_of s (1 - p)) = 0 ->
      custom_heuristic p s = Fin (len (actions_of s p))).
Proof.
  intros Hterm. unfold custom_heuristic, chase_bonus. rewrite Hterm.
  split.
  - destruct (loc_in _ _); reflexivity.
  - intros Hzero. unfold len in *.
    destruct (actions_of s (1 - p)) as [|a l]; [|cbn in Hzero; lia].
    cbn. f_equal. lia.
Qed.


End HeuristicFacts.

Lemma score_antisymmetric_witness :
  score (G := TreeGame) 0 (quiet 3 1) = - score (G := TreeGame) 1 (quiet 3 1).
Proof.
  apply (score_antisymmetric (G := TreeGame) (quiet 3 1) 0 1);
    reflexivity.
Defined.

Lemma custom_heuristic_terminal_exact_witness :
  custom_heuristic (G := TreeGame) 1 (leaf 7) = Fin (-7).
Proof.
  apply (custom_heuristic_terminal_exact (G := TreeGame) 1 (leaf 7)).
  reflexivity.
Defined.


(** Where the opponent has moves the code is not that ratio: with one own
    move against three it returns the difference [-2], where
    [own / max(opp, 1)], cut to an integer, is [0]. *)
Lemma custom_heuristic_not_ratio :
  custom_heuristic (G := TreeGame) 1 (quiet 3 1) = Fin (-2)
  /\ aggressive_by_ratio (G := TreeGame) 1 (quiet 3 1) = Fin 0.
Proof.
  split; reflexivity.
Qed.

(** ** Termination of the depth-limited search *)

Section Termination.
Context {G : Game}.
Variable p : Z.

Abbreviation evaluator := (state G -> value -> value -> option value)
  (only parsing).

Lemma min_value_step fuel (s : state G) alpha beta depth :
  min_value p (S fuel) s alpha beta depth
  = if terminal_test s then Some (utility s p)
    else if depth <=? 0 then Some (Fin (score p s))
    else min_loop (fun s' a b => max_value p fuel s' a b (depth - 1))
           s alpha (actions s) PosInf beta.
Proof. reflexivity. Qed.

Lemma max_value_step fuel (s : state G) alpha beta depth :
  max_value p (S fuel) s alpha beta depth
  = if terminal_test s then Some (utility s p)
    else if depth <=? 0 then Some (Fin (score p s))
    else max_loop (fun s' a b => min_value p fuel s' a b (depth - 1))
           s beta (actions s) NegInf alpha.
Proof. reflexivity. Qed.

Lemma min_loop_ext (e1 e2 : evaluator) (s : state G) alpha acts :
  (forall s' a b, e1 s' a b = e2 s' a b) ->
  forall v beta,
    min_loop e1 s alpha acts v beta = min_loop e2 s alpha acts v beta.
Proof.
  intros Hext. induction acts as [|a rest IH]; intros v beta; cbn.
  - reflexivity.
  - rewrite Hext. destruct (e2 _ _ _); [|reflexivity].
    destruct (_ <=?v _); [reflexivity|apply IH].
Qed.

Lemma max_loop_ext (e1 e2 : evaluator) (s : state G) beta acts :
  (forall s' a b, e1 s' a b = e2 s' a b) ->
  forall v alpha,
    max_loop e1 s beta acts v alpha = max_loop e2 s beta acts v alpha.
Proof.
  intros Hext. induction acts as [|a rest IH]; intros v alpha; cbn.
  - reflexivity.
  - rewrite Hext. destruct (e2 _ _ _); [|reflexivity].
    destruct (_ >=?v _); [reflexivity|apply IH].
Qed.

Lemma ab_loop_ext (e1 e2 : evaluator) (s : state G) acts :
  (forall s' a b, e1 s' a b = e2 s' a b) ->
  forall f, ab_loop e1 s acts f = ab_loop e2 s acts f.
Proof.
  intros Hext. induction acts as [|a rest IH]; intros f; cbn.
  - reflexivity.
  - rewrite Hext. destruct (e2 _ _ _); [|reflexivity].
    destruct (_ >=?v _); apply IH.
Qed.

Lemma negamax_loop_ext (e1 e2 : evaluator) (s : state G) acts :
  (forall s' a b, e1 s' a b = e2 s' a b) ->
  forall f, negamax_loop e1 s acts f = negamax_loop e2 s acts f.
Proof.
  intros Hext. induction acts as [|a rest IH]; intros f; cbn.
  - reflexivity.
  - rewrite Hext. destruct (e2 _ _ _); [|reflexivity].
    destruct (Value.max _ _ >=?v _); [reflexivity|apply IH].
Qed.

Lemma min_loop_total (eval : evaluator) (s : state G) alpha acts :
  total eval -> forall v beta, exists r, min_loop eval s alpha acts v beta = Some r.
Proof.
  intros Htot. induction acts as [|a rest IH]; intros v beta; cbn.
  - eauto.
  - destruct (Htot (result s a) alpha beta) as [r ->].
    destruct (_ <=?v _); eauto.
Qed.

Lemma max_loop_total (eval : evaluator) (s : state G) beta acts :
  total eval -> forall v alpha, exists r, max_loop eval s beta acts v alpha = Some r.
Proof.
  intros Htot. induction acts as [|a rest IH]; intros v alpha; cbn.
  - eauto.
  - destruct (Htot (result s a) alpha beta) as [r ->].
    destruct (_ >=?v _); eauto.
Qed.

Lemma ab_loop_total (eval : evaluator) (s : state G) acts :
  total eval -> forall f, exists f', ab_loop eval s acts f = Some f'.
Proof.
  intros Htot. induction acts as [|a rest IH]; intros f; cbn.
  - eauto.
  - destruct (Htot (result s a) (f_alpha f) (f_beta f)) as [r ->].
    destruct (_ >=?v _); eauto.
Qed.

Lemma negamax_loop_total (eval : evaluator) (s : state G) acts :
  total eval -> forall f, exists f', negamax_loop eval s acts f = Some f'.
Proof.
  intros Htot. induction acts as [|a rest IH]; intros f; cbn.
  - eauto.
  - destruct (Htot (result s a) (Value.neg (f_alpha f)) (Value.neg (f_beta f)))
      as [r ->].
    destruct (Value.max _ _ >=?v _); eauto.
Qed.

(** Fuel beyond the depth changes nothing. *)
Lemma value_fuel_stable (n : nat) :
  forall fuel depth (s : state G) alpha beta,
    (Z.to_nat depth <= n)%nat -> (n < fuel)%nat ->
    min_value p fuel s alpha beta depth = min_value p (S n) s alpha beta depth
    /\ max_value p fuel s alpha beta depth
       = max_value p (S n) s alpha beta depth.
Proof.
  induction n as [|n IH]; intros fuel depth s alpha beta Hd Hn;
    (destruct fuel as [|fuel]; [lia|]);
    rewrite !min_value_step, !max_value_step;
    destruct (terminal_test s); [auto| |auto|];
    destruct (Z.leb_spec depth 0) as [Hle|Hgt]; [auto|lia|auto|].
  split.
  - apply min_loop_ext. intros s' a b.
    apply (IH fuel (depth - 1) s' a b); lia.
  - apply max_loop_ext. intros s' a b.
    apply (IH fuel (depth - 1) s' a b); lia.
Qed.

(** With one unit of fuel per level of depth the search returns. *)
Lemma value_returns (n : nat) :
  forall depth (s : state G) alpha beta,
    (Z.to_nat depth <= n)%nat ->
    (exists v, min_value p (S n) s alpha beta depth = Some v)
    /\ (exists v, max_value p (S n) s alpha beta depth = Some v).
Proof.
  induction n as [|n IH]; intros depth s alpha beta Hd;
    rewrite min_value_step, max_value_step;
    destruct (terminal_test s); [eauto| |eauto|];
    destruct (Z.leb_spec depth 0) as [Hle|Hgt]; [eauto|lia|eauto|].
  split.
  - apply min_loop_total. intros s' a b.
    apply (IH (depth - 1) s' a b). lia.
  - apply max_loop_total. intros s' a b.
    apply (IH (depth - 1) s' a b). lia.
Qed.

Lemma min_value_returns depth (s : state G) alpha beta :
  exists v, forall fuel, (Z.to_nat depth < fuel)%nat ->
    min_value p fuel s alpha beta depth = Some v.
Proof.
  destruct (value_returns (Z.to_nat depth) depth s alpha beta) as [[v Hv] _];
    [lia|].
  exists v. intros fuel Hfuel. rewrite <- Hv.
  apply (value_fuel_stable (Z.to_nat depth)); lia.
Qed.

Lemma max_value_returns depth (s : state G) alpha beta :
  exists v, forall fuel, (Z.to_nat depth < fuel)%nat ->
    max_value p fuel s alpha beta depth = Some v.
Proof.
  destruct (value_returns (Z.to_nat depth) depth s alpha beta) as [_ [v Hv]];
    [lia|].
  exists v. intros fuel Hfuel. rewrite <- Hv.
  apply (value_fuel_stable (Z.to_nat depth)); lia.
Qed.

(** The evaluator a driver hands to its loop, at a fuel that suffices. *)
Lemma child_evaluator_stable depth fuel :
  (Z.to_nat depth < fuel)%nat ->
  forall (s : state G) a b,
    min_value p fuel s a b (depth - 1)
    = min_value p (S (Z.to_nat depth)) s a b (depth - 1).
Proof.
  intros Hfuel s a b.
  apply (value_fuel_stable (Z.to_nat depth)); lia.
Qed.

Lemma child_evaluator_total depth :
  total (fun (s : state G) a b =>
           min_value p (S (Z.to_nat depth)) s a b (depth - 1)).
Proof.
  intros s a b.
  apply (value_returns (Z.to_nat depth) (depth - 1) s a b). lia.
Qed.

Lemma alpha_beta_frame_returns (s : state G) depth :
  exists f, forall fuel, (Z.to_nat depth < fuel)%nat ->
    alpha_beta_frame p fuel s depth = Some f.
Proof.
  destruct (ab_loop_total _ s (actions s) (child_evaluator_total depth) frame0)
    as [f Hf].
  exists f. intros fuel Hfuel. unfold alpha_beta_frame. rewrite <- Hf.
  apply ab_loop_ext, child_evaluator_stable, Hfuel.
Qed.

(** C10.  For every state, depth and pair of bounds, [max_value],
    [min_value] and [NegamaxAlphaBeta] return: each has one result that
    every run with more fuel than the depth produces, so none of them can
    recurse forever.  The recursive calls pass [depth - 1] and stop at a
    terminal state or once the depth is used up. *)
Theorem search_terminates (s : state G) (depth : Z) (alpha beta : value) :
  (exists v, forall fuel, (Z.to_nat depth < fuel)%nat ->
     max_value p fuel s alpha beta depth = Some v)
  /\ (exists v, forall fuel, (Z.to_nat depth < fuel)%nat ->
        min_value p fuel s alpha beta depth = Some v)
  /\ (exists r, forall fuel, (Z.to_nat depth < fuel)%nat ->
        NegamaxAlphaBeta p fuel s depth = Some r).
Proof.
  split; [apply max_value_returns|].
  split; [apply min_value_returns|].
  unfold NegamaxAlphaBeta.
  destruct ((depth =? 0) || terminal_test s); [eauto|].
  destruct (negamax_loop_total _ s (actions s)
              (child_evaluator_total depth) frame0) as [f Hf].
  exists (Best (best_move f)). intros fuel Hfuel.
  rewrite (negamax_loop_ext _ _ s (actions s)
             (child_evaluator_stable depth fuel Hfuel)), Hf.
  reflexivity.
Qed.

End Termination.

(** ** What the pruned search computes *)

Section ValueOrder.

Lemma leb_spec (a b : value) :
  ((a <=?v b) = true /\ a <=v b) \/ ((a <=?v b) = false /\ b <v a).
Proof. value_cases; auto. Qed.

Lemma geb_spec (a b : value) :
  ((a >=?v b) = true /\ b <=v a) \/ ((a >=?v b) = false /\ a <v b).
Proof. unfold Value.geb. apply leb_spec. Qed.

Lemma max_spec (a b : value) :
  (a <v b /\ Value.max a b = b) \/ (b <=v a /\ Value.max a b = a).
Proof. value_cases; auto; right; split; auto; lia. Qed.

Lemma min_spec (a b : value) :
  (b <v a /\ Value.min a b = b) \/ (a <=v b /\ Value.min a b = a).
Proof. value_cases; auto; right; split; auto; lia. Qed.

Lemma le_antisym (a b : value) : a <=v b -> b <=v a -> a = b.
Proof. value_cases; intros; try tauto; f_equal; lia. Qed.

End ValueOrder.

(** Closes goals that only speak of the order between values. *)
Ltac value_order :=
  cbn in *;
  first
    [ lia
    | match goal with
      | v : value |- _ => destruct v; value_order
      end ].

(** Replaces every [max], [min] and comparison in sight by what it
    evaluates to, case by case. *)
Ltac value_split :=
  repeat match goal with
         | |- context [Value.max ?a ?b] =>
             let H := fresh "Hmax" in
             let E := fresh "Emax" in
             destruct (max_spec a b) as [[H E]|[H E]]; rewrite E in *; clear E
         | H0 : context [Value.max ?a ?b] |- _ =>
             let H := fresh "Hmax" in
             let E := fresh "Emax" in
             destruct (max_spec a b) as [[H E]|[H E]]; rewrite E in *; clear E
         | |- context [Value.min ?a ?b] =>
             let H := fresh "Hmin" in
             let E := fresh "Emin" in
             destruct (min_spec a b) as [[H E]|[H E]]; rewrite E in *; clear E
         | H0 : context [Value.min ?a ?b] |- _ =>
             let H := fresh "Hmin" in
             let E := fresh "Emin" in
             destruct (min_spec a b) as [[H E]|[H E]]; rewrite E in *; clear E
         end.

Lemma maximum_cons (x : value) (l : list value) :
  Value.maximum (x :: l) = Value.max x (Value.maximum l).
Proof. reflexivity. Qed.

Lemma minimum_cons (x : value) (l : list value) :
  Value.minimum (x :: l) = Value.min x (Value.minimum l).
Proof. reflexivity. Qed.

Section Soundness.
Context {G : Game}.
Variable p : Z.

Lemma max_loop_sound eval (tval : state G -> value) (s : state G) beta :
  sound eval tval ->
  forall acts v alpha r,
    v <=v alpha ->
    max_loop eval s beta acts v alpha = Some r ->
    let t := Value.maximum (map (fun a => tval (result s a)) acts) in
    v <=v r /\ (alpha <v r -> r <=v t) /\ (r <v beta -> t <=v r).
Proof.
  intros Hsound. induction acts as [|a rest IH]; intros v alpha r Hv Hloop;
    cbn in Hloop; cbn [map]; cbv zeta.
  - injection Hloop as <-. cbn. value_order.
  - destruct (eval (result s a) alpha beta) as [rc|] eqn:Hrc; [|discriminate].
    apply Hsound in Hrc. destruct Hrc as [Hlow Hupp].
    rewrite maximum_cons.
    set (ta := tval (result s a)) in *.
    set (tr := Value.maximum (map (fun a0 => tval (result s a0)) rest)) in *.
    destruct (geb_spec (Value.max v rc) beta) as [[Hcut Hge]|[Hcut Hlt]];
      rewrite Hcut in Hloop.
    + injection Hloop as <-. clearbody ta tr. clear IH Hcut.
      value_split; value_order.
    + apply IH in Hloop; [|clear; value_split; value_order].
      cbv zeta in Hloop. fold tr in Hloop. clearbody ta tr. clear IH Hcut.
      destruct Hloop as (H1 & H2 & H3).
      value_split; value_order.
Qed.

Lemma min_loop_sound eval (tval : state G -> value) (s : state G) alpha :
  sound eval tval ->
  forall acts v beta r,
    beta <=v v ->
    min_loop eval s alpha acts v beta = Some r ->
    let t := Value.minimum (map (fun a => tval (result s a)) acts) in
    r <=v v /\ (alpha <v r -> r <=v t) /\ (r <v beta -> t <=v r).
Proof.
  intros Hsound. induction acts as [|a rest IH]; intros v beta r Hv Hloop;
    cbn in Hloop; cbn [map]; cbv zeta.
  - injection Hloop as <-. cbn. value_order.
  - destruct (eval (result s a) alpha beta) as [rc|] eqn:Hrc; [|discriminate].
    apply Hsound in Hrc. destruct Hrc as [Hlow Hupp].
    rewrite minimum_cons.
    set (ta := tval (result s a)) in *.
    set (tr := Value.minimum (map (fun a0 => tval (result s a0)) rest)) in *.
    destruct (leb_spec (Value.min v rc) alpha) as [[Hcut Hle]|[Hcut Hgt]];
      rewrite Hcut in Hloop.
    + injection Hloop as <-. clearbody ta tr. clear IH Hcut.
      value_split; value_order.
    + apply IH in Hloop; [|clear; value_split; value_order].
      cbv zeta in Hloop. fold tr in Hloop. clearbody ta tr. clear IH Hcut.
      destruct Hloop as (H1 & H2 & H3).
      value_split; value_order.
Qed.

End Soundness.

Section PrunedValue.
Context {G : Game}.
Variable p : Z.

Lemma minimax_min_terminal n (s : state G) :
  terminal_test s = true -> minimax_min p n s = utility s p.
Proof. intros H. destruct n; cbn; rewrite H; reflexivity. Qed.

Lemma minimax_max_terminal n (s : state G) :
  terminal_test s = true -> minimax_max p n s = utility s p.
Proof. intros H. destruct n; cbn; rewrite H; reflexivity. Qed.

Lemma bounds_exact (a b t : value) : bounds a b t t.
Proof. unfold bounds. value_order. Qed.

(** Fail-soft alpha-beta: whatever the window, the result of
    [min_value] / [max_value] bounds the exhaustive minimax value of the
    state from the side the window allows. *)
Lemma value_sound (fuel : nat) :
  forall depth,
    sound (fun (s : state G) a b => min_value p fuel s a b depth)
      (minimax_min p (plies depth))
    /\ sound (fun (s : state G) a b => max_value p fuel s a b depth)
         (minimax_max p (plies depth)).
Proof.
  induction fuel as [|fuel IH]; intros depth.
  { split; intros s a b r H; discriminate. }
  split; intros s a b r H.
  - rewrite min_value_step in H.
    destruct (terminal_test s) eqn:Hterm.
    { injection H as <-. rewrite minimax_min_terminal by exact Hterm.
      apply bounds_exact. }
    destruct (Z.leb_spec depth 0) as [Hle|Hgt].
    { injection H as <-. unfold plies.
      replace (Z.to_nat depth) with O by lia. cbn. rewrite Hterm.
      apply bounds_exact. }
    unfold plies. replace (Z.to_nat depth) with (S (plies (depth - 1)))
      by (unfold plies; lia).
    cbn [minimax_min]. rewrite Hterm.
    eapply (min_loop_sound _ (minimax_max p (plies (depth - 1)))) in H.
    + destruct H as (_ & Hlow & Hupp). split; assumption.
    + apply (IH (depth - 1)).
    + value_order.
  - rewrite max_value_step in H.
    destruct (terminal_test s) eqn:Hterm.
    { injection H as <-. rewrite minimax_max_terminal by exact Hterm.
      apply bounds_exact. }
    destruct (Z.leb_spec depth 0) as [Hle|Hgt].
    { injection H as <-. unfold plies.
      replace (Z.to_nat depth) with O by lia. cbn. rewrite Hterm.
      apply bounds_exact. }
    unfold plies. replace (Z.to_nat depth) with (S (plies (depth - 1)))
      by (unfold plies; lia).
    cbn [minimax_max]. rewrite Hterm.
    eapply (max_loop_sound _ (minimax_min p (plies (depth - 1)))) in H.
    + destruct H as (_ & Hlow & Hupp). split; assumption.
    + apply (IH (depth - 1)).
    + value_order.
Qed.

(** With the full window [max_value] returns the exhaustive value. *)
Theorem max_value_exact fuel (s : state G) depth :
  (Z.to_nat depth < fuel)%nat ->
  max_value p fuel s NegInf PosInf depth
  = Some (minimax_max p (plies depth) s).
Proof.
  intros Hfuel. destruct (max_value_returns p depth s NegInf PosInf) as [r Hr].
  specialize (Hr fuel Hfuel). rewrite Hr. f_equal.
  apply (value_sound fuel depth) in Hr. destruct Hr as [Hlow Hupp].
  generalize dependent (minimax_max p (plies depth) s). intros t Hlow Hupp.
  apply le_antisym; value_order.
Qed.

(** The root loop keeps [alpha] equal to [best_score], and [best_score]
    ends as the largest exhaustive value among the children. *)
Lemma ab_loop_best_score eval (tval : state G -> value) (s : state G) :
  sound eval tval ->
  forall acts f f',
    f_alpha f = best_score f -> f_beta f = PosInf ->
    ab_loop eval s acts f = Some f' ->
    best_score f'
    = Value.max (best_score f)
        (Value.maximum (map (fun a => tval (result s a)) acts)).
Proof.
  intros Hsound. induction acts as [|a rest IH];
    intros [fa fb b m] f' Ha Hb Hloop; cbn in Ha, Hb; subst fa fb;
    cbn in Hloop; cbn [map best_score].
  - injection Hloop as <-. cbn. value_split; [|reflexivity].
    destruct b; cbn in *; tauto.
  - destruct (eval (result s a) b PosInf) as [rc|] eqn:Hrc; [|discriminate].
    apply Hsound in Hrc. destruct Hrc as [Hlow Hupp].
    rewrite maximum_cons.
    set (ta := tval (result s a)) in *.
    set (tr := Value.maximum (map (fun a0 => tval (result s a0)) rest)).
    clearbody ta.
    destruct (geb_spec rc b) as [[Hcmp Hge]|[Hcmp Hlt]]; rewrite Hcmp in Hloop.
    + assert (Value.max b rc = rc) as Hmax
        by (clear -Hge; apply le_antisym; value_split; value_order).
      rewrite Hmax in Hloop. apply IH in Hloop; [|reflexivity..].
      cbn [best_score] in Hloop. fold tr in Hloop. rewrite Hloop.
      clearbody tr. clear -Hlow Hupp Hge.
      apply le_antisym; value_split; value_order.
    + assert (Value.max b rc = b) as Hmax
        by (clear -Hlt; apply le_antisym; value_split; value_order).
      rewrite Hmax in Hloop. apply IH in Hloop; [|reflexivity..].
      cbn [best_score] in Hloop. fold tr in Hloop. rewrite Hloop.
      clearbody tr. clear -Hlow Hupp Hlt.
      apply le_antisym; value_split; value_order.
Qed.

Lemma minimax_root_fold (s : state G) n acts (acc : value * move (action G)) :
  (foldl (fun (acc : value * move (action G)) a =>
            let v := minimax_min p n (result s a) in
            if acc.1 <?v v then (v, Move a) else acc) acc acts).1
  = Value.max acc.1
      (Value.maximum (map (fun a => minimax_min p n (result s a)) acts)).
Proof.
  revert acc. induction acts as [|a rest IH]; intros [b m]; cbn [foldl map].
  - cbn. value_split; [|reflexivity]. destruct b; cbn in *; tauto.
  - rewrite IH, maximum_cons. cbv zeta. cbn [fst].
    generalize (Value.maximum
                  (map (fun a0 => minimax_min p n (result s a0)) rest)).
    generalize (minimax_min p n (result s a)). intros ta tr.
    change (b <?v ta) with (Value.ltb b ta).
    replace (if Value.ltb b ta then (ta, Move a) else (b, m)).1
      with (Value.max b ta)
      by (unfold Value.max; destruct (Value.ltb b ta); reflexivity).
    apply le_antisym; value_split; value_order.
Qed.

(** The value side of the comparison with exhaustive minimax: the root
    loop of [alpha_beta_search] runs to its end, and the best score it
    ends with is the exhaustive search's. *)
Theorem alpha_beta_best_score_exact fuel (s : state G) depth :
  (Z.to_nat depth < fuel)%nat ->
  exists f,
    alpha_beta_frame p fuel s depth = Some f
    /\ best_score f = (minimax_root p s depth).1.
Proof.
  intros Hfuel. destruct (alpha_beta_frame_returns p s depth) as [f Hf].
  specialize (Hf fuel Hfuel). exists f. split; [exact Hf|].
  pose proof Hf as H. unfold alpha_beta_frame in H.
  eapply (ab_loop_best_score _ (minimax_min p (plies (depth - 1)))) in H;
    try reflexivity.
  - rewrite H. unfold minimax_root. rewrite minimax_root_fold. reflexivity.
  - apply (value_sound fuel (depth - 1)).
Qed.

End PrunedValue.

(** ** The drivers on concrete trees *)

(** C1.  On [tied_bound_tree], searched to depth 2, the exhaustive
    values of the two root moves are 3 and 1, and exhaustive minimax
    plays the first.  [alpha_beta_search] evaluates the second move with
    [alpha = 3]; [min_value] cuts off at the reply scoring 3 and returns
    that bound, which the root's [v >= best_score] accepts: the move
    returned is the second, worth 1.  The best score itself is right. *)
Theorem alpha_beta_search_returns_worse_move :
  alpha_beta_search (G := TreeGame) 0 3 tied_bound_tree 2 = Some (Move 1%nat)
  /\ minimax_search (G := TreeGame) 0 tied_bound_tree 2 = Move 0%nat
  /\ minimax_min (G := TreeGame) 0 1 (@result TreeGame tied_bound_tree 0%nat) = Fin 3
  /\ minimax_min (G := TreeGame) 0 1 (@result TreeGame tied_bound_tree 1%nat) = Fin 1
  /\ option_map best_score (alpha_beta_frame (G := TreeGame) 0 3 tied_bound_tree 2)
     = Some (minimax_root (G := TreeGame) 0 tied_bound_tree 2).1.
Proof. repeat split; vm_compute; reflexivity. Qed.

(** C2.  On [two_reply_tree], a zero-sum game searched to depth 2,
    [alpha_beta_search] plays the second move (worth 3, as exhaustive
    minimax does) while [NegamaxAlphaBeta] plays the first (worth 1): it
    hands [min_value] the negated bounds, so the first reply already
    counts as a cut-off. *)
Theorem negamax_differs_from_alpha_beta :
  NegamaxAlphaBeta (G := TreeGame) 0 3 two_reply_tree 2
  = Some (@Best TreeGame (Move 0%nat))
  /\ alpha_beta_search (G := TreeGame) 0 3 two_reply_tree 2
     = Some (Move 1%nat)
  /\ minimax_search (G := TreeGame) 0 two_reply_tree 2 = Move 1%nat
  /\ (forall s : position,
        @utility TreeGame s 1 = Value.neg (@utility TreeGame s 0)).
Proof.
  repeat split; try (vm_compute; reflexivity).
Qed.

(** C7.  On [tie_tree], searched to depth 1, both root moves evaluate
    to 0; [alpha_beta_search] returns the second, because its comparison
    is [v >= best_score]; keeping the first of the two, as a strict
    comparison does, is what [minimax_search] returns. *)
Theorem alpha_beta_search_tie_takes_last :
  alpha_beta_search (G := TreeGame) 0 2 tie_tree 1 = Some (Move 1%nat)
  /\ minimax_min (G := TreeGame) 0 0 (@result TreeGame tie_tree 0%nat)
     = minimax_min (G := TreeGame) 0 0 (@result TreeGame tie_tree 1%nat)
  /\ minimax_search (G := TreeGame) 0 tie_tree 1 = Move 0%nat.
Proof. repeat split; vm_compute; reflexivity. Qed.

(** ** The first plies *)

Section FirstPly.
Context {G : Game}.
Variable uct_argmax : Z -> list (Z * Z) -> nat.
Variable rollout : nat -> state G -> Z.

Lemma choice_in {A} (r : nat) (l : list A) :
  l <> [] -> exists a, choice r l = Some a /\ a ∈ l.
Proof.
  intros Hne. destruct l as [|x l]; [congruence|].
  unfold choice.
  destruct (lookup_lt_is_Some_2 (x :: l) (r mod length (x :: l))%nat)
    as [a Ha].
  - apply Nat.mod_upper_bound. cbn. lia.
  - exists a. split; [exact Ha|]. apply list_elem_of_lookup. eauto.
Qed.

Lemma choice_below {A} (r : nat) (l : list A) :
  (r < length l)%nat -> choice r l = l !! r.
Proof.
  intros Hr. destruct l as [|x l]; [cbn in Hr; lia|].
  unfold choice. rewrite Nat.mod_small by exact Hr. reflexivity.
Qed.

(** C8.  While [ply_count < 2], which covers the first ply of the game,
    and with at least one legal action, [get_action] puts exactly one
    action on the queue and returns; that action is legal, and the draws
    [0 .. len - 1] select the legal actions one each, in order, so a
    uniform draw gives a uniform action.  Nothing of [mcts] enters the
    result: the submission is there without any search. *)
Theorem get_action_first_ply (queue : list (action G)) (s : state G) :
  ply_count s < 2 -> actions s <> [] ->
  (forall r, exists a,
      get_action uct_argmax rollout r queue s = Ret (queue ++ [a], PutResult)
      /\ a ∈ actions s)
  /\ map (fun r => get_action uct_argmax rollout r queue s)
       (seq 0 (length (actions s)))
     = map (fun a => Ret (queue ++ [a], PutResult)) (actions s).
Proof.
  intros Hply Hne.
  assert ((ply_count s <? 2) = true) as Hb by (apply Z.ltb_lt; exact Hply).
  split.
  - intros r. destruct (choice_in r (actions s) Hne) as (a & Ha & Hin).
    exists a. unfold get_action. rewrite Hb, Ha. auto.
  - apply list_eq. intros i. rewrite !list_lookup_fmap.
    destruct (decide (i < length (actions s))%nat) as [Hi|Hi].
    + rewrite lookup_seq_lt by exact Hi. cbn.
      unfold get_action. rewrite Hb, choice_below by exact Hi.
      destruct (lookup_lt_is_Some_2 _ _ Hi) as [a Ha]. rewrite Ha.
      reflexivity.
    + rewrite lookup_seq_ge by lia.
      rewrite (lookup_ge_None_2 (actions s) i) by lia. reflexivity.
Qed.

End FirstPly.

Lemma get_action_first_ply_witness :
  map (fun r => get_action (G := TreeGame) first_child payoff_rollout r [] opening)
    [0; 1; 2]%nat
  = [Ret ([0%nat], PutResult); Ret ([1%nat], PutResult);
     Ret ([2%nat], PutResult)].
Proof.
  apply (get_action_first_ply (G := TreeGame) first_child payoff_rollout
           [] opening); [reflexivity | discriminate].
Defined.

(** ** A root without legal actions *)

Section NoActions.
Context {G : Game}.

Abbreviation store := (list (@MCTS_Node G)).

(** [alpha_beta_search] never enters its loop and returns the tuple
    [best_move] was initialised with. *)
Lemma alpha_beta_search_no_actions p fuel (s : state G) depth :
  actions s = [] -> alpha_beta_search p fuel s depth = Some NoMove.
Proof.
  intros Hnone. unfold alpha_beta_search, alpha_beta_frame.
  rewrite Hnone. reflexivity.
Qed.

Variable uct_argmax : Z -> list (Z * Z) -> nat.
Variable rollout : nat -> state G -> Z.

Lemma lone_root_iteration (s : state G) (h : store) (i : nat) :
  actions s = [] -> lone_root s h ->
  mcts_iteration uct_argmax rollout h O i = Raise ValueError
  \/ (exists h', mcts_iteration uct_argmax rollout h O i = Ret h'
                 /\ lone_root s h').
Proof.
  intros Hnone (v & r & ->). unfold mcts_iteration. cbn.
  destruct (terminal_test s).
  - right. cbn. eexists. split; [reflexivity|]. red. eauto.
  - left. rewrite Hnone. reflexivity.
Qed.

Lemma lone_root_loop (s : state G) (iters : list nat) :
  actions s = [] ->
  forall h, lone_root s h ->
    mcts_loop uct_argmax rollout iters h O = Raise ValueError
    \/ (exists h', mcts_loop uct_argmax rollout iters h O = Ret h'
                   /\ lone_root s h').
Proof.
  intros Hnone. induction iters as [|i rest IH]; intros h Hlone.
  - right. cbn. eauto.
  - cbn [mcts_loop].
    destruct (lone_root_iteration s h i Hnone Hlone)
      as [He|(h' & He & Hlone')]; rewrite He; cbn.
    + left. reflexivity.
    + apply IH, Hlone'.
Qed.

(** Whatever the selection rule, the rollouts and the iteration budget,
    [mcts] on a state without legal actions ends in an exception: the
    root has no child for [best_child] to pick, and an empty [children]
    has no [index] of anything. *)
Lemma mcts_no_actions_raises (s : state G) (iter_limit : Z) :
  actions s = [] ->
  mcts uct_argmax rollout s iter_limit = Raise ValueError.
Proof.
  intros Hnone. unfold mcts.
  destruct (lone_root_loop s (seq 0 (Z.to_nat iter_limit)) Hnone
              [new_node s None]) as [He|(h' & He & (v & r & ->))];
    [red; eauto| |]; rewrite He; reflexivity.
Qed.

(** [get_action] then swallows the exception and returns its empty
    [best_move] without putting anything on the queue. *)
Lemma get_action_no_actions r queue (s : state G) :
  2 <= ply_count s -> actions s = [] ->
  get_action uct_argmax rollout r queue s = Ret (queue, BestMoveList).
Proof.
  intros Hply Hnone. unfold get_action.
  destruct (Z.ltb_spec (ply_count s) 2) as [?|_]; [lia|].
  rewrite (mcts_no_actions_raises s default_iter_limit Hnone).
  reflexivity.
Qed.

End NoActions.

(** C3.  On a finished game, a root without legal actions,
    [alpha_beta_search] returns the no-move tuple, while [mcts] raises
    for every selection rule, rollout and iteration budget: it neither
    returns nor signals "no move". *)
Theorem mcts_raises_on_terminal_root
    (uct_argmax : Z -> list (Z * Z) -> nat) (rollout : nat -> position -> Z)
    (iter_limit : Z) :
  actions (g := TreeGame) (leaf 1) = []
  /\ terminal_test (g := TreeGame) (leaf 1) = true
  /\ alpha_beta_search (G := TreeGame) 0 4 (leaf 1) default_depth
     = Some NoMove
  /\ mcts (G := TreeGame) uct_argmax rollout (leaf 1) iter_limit
     = Raise ValueError.
Proof.
  repeat split.
  apply (mcts_no_actions_raises (G := TreeGame)). reflexivity.
Qed.

(** ** The counters of the search tree *)

Lemma index_of_elem (k : nat) (l : list nat) (j : nat) :
  index_of k l = Some j -> k ∈ l.
Proof.
  revert j. induction l as [|y l IH]; intros j; cbn; [discriminate|].
  destruct (Nat.eqb_spec k y) as [->|Hne].
  - intros _. apply list_elem_of_here.
  - destruct (index_of k l) as [j'|]; [|discriminate].
    intros _. apply list_elem_of_further. eauto.
Qed.

Lemma index_of_not_elem (k : nat) (l : list nat) :
  k ∉ l -> index_of k l = None.
Proof.
  intros Hnot. destruct (index_of k l) as [j|] eqn:Hj; [|reflexivity].
  exfalso. eauto using index_of_elem.
Qed.

Section TreeCounters.
Context {G : Game}.
Variable uct_argmax : Z -> list (Z * Z) -> nat.
Variable rollout : nat -> state G -> Z.

Abbreviation store := (list (@MCTS_Node G)).

Lemma root_path_le (h : store) :
  parents_older h ->
  forall fuel n k, k ∈ root_path fuel h n -> (k <= n)%nat.
Proof.
  intros Hold. induction fuel as [|fuel IH]; intros n k; cbn [root_path].
  { intros H. inversion H. }
  destruct (h !! n) as [nd|] eqn:Hn; [|intros H; inversion H].
  intros [->|H]%elem_of_cons; [lia|].
  destruct (parent nd) as [q|] eqn:Hq; [|inversion H].
  apply IH in H. specialize (Hold n nd q Hn Hq). lia.
Qed.

Lemma root_path_insert (h : store) c (nd nd' : MCTS_Node) :
  h !! c = Some nd -> parent nd' = parent nd ->
  forall fuel n, root_path fuel (<[c := nd']> h) n = root_path fuel h n.
Proof.
  intros Hc Hpar. induction fuel as [|fuel IH]; intros n; cbn [root_path];
    [reflexivity|].
  destruct (decide (n = c)) as [->|Hne].
  - rewrite list_lookup_insert_eq by (eapply lookup_lt_Some; eauto).
    rewrite Hc, Hpar. destruct (parent nd); [rewrite IH|]; reflexivity.
  - rewrite list_lookup_insert_ne by congruence.
    destruct (h !! n) as [ndn|]; [|reflexivity].
    destruct (parent ndn); [rewrite IH|]; reflexivity.
Qed.

Lemma parents_older_insert (h : store) c (nd nd' : MCTS_Node) :
  h !! c = Some nd -> parent nd' = parent nd ->
  parents_older h -> parents_older (<[c := nd']> h).
Proof.
  intros Hc Hpar Hold n ndn q Hn Hq.
  destruct (decide (n = c)) as [->|Hne].
  - rewrite list_lookup_insert_eq in Hn by (eapply lookup_lt_Some; eauto).
    injection Hn as <-. apply (Hold c nd q Hc). congruence.
  - rewrite list_lookup_insert_ne in Hn by congruence. eauto.
Qed.

(** [backup] returns, and changes exactly the nodes on the path to the
    root: one more visit each, the reward with alternating sign. *)
Lemma backup_effect (fuel : nat) :
  forall (h : store) c r,
    parents_older h -> (c < fuel)%nat -> (c < length h)%nat ->
    exists h',
      backup fuel h c r = Ret h'
      /\ length h' = length h
      /\ forall k, h' !! k = backed_up (root_path fuel h c) r k <$> h !! k.
Proof.
  induction fuel as [|fuel IH]; intros h c r Hold Hfuel Hlen; [lia|].
  destruct (lookup_lt_is_Some_2 h c Hlen) as [nd Hc].
  cbn [backup root_path]. rewrite Hc.
  destruct (parent nd) as [q|] eqn:Hq.
  - pose proof (Hold c nd q Hc Hq) as Hqc.
    destruct (IH (<[c := update nd r]> h) q (- r))
      as (h' & Hback & Hsame & Hlook).
    { eapply parents_older_insert; eauto. }
    { lia. }
    { rewrite length_insert. lia. }
    exists h'. split; [exact Hback|].
    split; [rewrite Hsame; apply length_insert|].
    intros k. rewrite Hlook.
    rewrite (root_path_insert h c nd (update nd r) Hc eq_refl).
    assert (c ∉ root_path fuel h q) as Hnotin.
    { intros Hin. apply (root_path_le h Hold) in Hin. lia. }
    unfold backed_up. cbn [index_of].
    destruct (Nat.eqb_spec k c) as [->|Hne].
    + rewrite (index_of_not_elem _ _ Hnotin).
      rewrite list_lookup_insert_eq by exact Hlen. rewrite Hc. reflexivity.
    + rewrite list_lookup_insert_ne by congruence.
      destruct (h !! k) as [ndk|]; [|reflexivity]. cbn.
      destruct (index_of k (root_path fuel h q)) as [j|]; [|reflexivity].
      cbn -[Nat.even]. rewrite Nat.even_succ, <- Nat.negb_even.
      destruct (Nat.even j); cbn; [reflexivity|].
      rewrite Z.opp_involutive. reflexivity.
  - exists (<[c := update nd r]> h). split; [reflexivity|].
    split; [apply length_insert|]. intros k.
    unfold backed_up. cbn [index_of].
    destruct (Nat.eqb_spec k c) as [->|Hne].
    + rewrite list_lookup_insert_eq by exact Hlen. rewrite Hc. reflexivity.
    + rewrite list_lookup_insert_ne by congruence.
      destruct (h !! k); reflexivity.
Qed.

(** [tree_policy] hands back a node of the store, which it either left
    as it was or grew by one expansion. *)
Lemma tree_policy_effect (fuel : nat) :
  forall (h : store) n h1 oc,
    tree_policy uct_argmax fuel h n = Ret (h1, oc) ->
    exists c, oc = Some c
              /\ ((h1 = h /\ (c < length h)%nat) \/ expanded h h1 c).
Proof.
  induction fuel as [|fuel IH]; intros h n h1 oc; cbn [tree_policy];
    [discriminate|].
  destruct (h !! n) as [nd|] eqn:Hn; [|discriminate].
  destruct (terminal_test (node_state nd)).
  { intros [= <- <-]. exists n. split; [reflexivity|]. left.
    split; [reflexivity|]. eapply lookup_lt_Some; eauto. }
  destruct (actions (node_state nd) !! length (children_actions nd))
    as [a|].
  { intros [= <- <-]. exists (length h). split; [reflexivity|]. right.
    exists n, nd, a. auto. }
  destruct (best_child uct_argmax h nd) as [c| |]; cbn; try discriminate.
  apply IH.
Qed.

Lemma expanded_lookup_old (h h1 : store) c k (ndk : MCTS_Node) :
  expanded h h1 c -> h !! k = Some ndk ->
  exists ndk', h1 !! k = Some ndk'
               /\ parent ndk' = parent ndk
               /\ visits ndk' = visits ndk
               /\ reward ndk' = reward ndk.
Proof.
  intros (m & nd & a & Hm & -> & ->) Hk.
  pose proof (lookup_lt_Some _ _ _ Hk) as Hlt.
  rewrite lookup_app_l by (rewrite length_insert; exact Hlt).
  destruct (decide (k = m)) as [->|Hne].
  - rewrite list_lookup_insert_eq by exact Hlt.
    rewrite Hm in Hk. injection Hk as <-. eexists. split; [reflexivity|].
    auto.
  - rewrite list_lookup_insert_ne by congruence. eauto.
Qed.

Lemma expanded_lookup (h h1 : store) c k (ndk' : MCTS_Node) :
  expanded h h1 c -> h1 !! k = Some ndk' ->
  (exists ndk, h !! k = Some ndk
               /\ parent ndk' = parent ndk
               /\ visits ndk' = visits ndk
               /\ reward ndk' = reward ndk)
  \/ (k = length h /\ visits ndk' = 1 /\ reward ndk' = 0
      /\ exists m, parent ndk' = Some m /\ (m < length h)%nat).
Proof.
  intros Hexp Hk. destruct (decide (k < length h)%nat) as [Hlt|Hge].
  - left. destruct (lookup_lt_is_Some_2 h k Hlt) as [ndk Hold].
    destruct (expanded_lookup_old h h1 c k ndk Hexp Hold)
      as (ndk2 & Hk2 & ?). rewrite Hk in Hk2. injection Hk2 as <-. eauto.
  - right. destruct Hexp as (m & nd & a & Hm & -> & ->).
    pose proof (lookup_lt_Some _ _ _ Hk) as Hlen.
    rewrite length_app, length_insert in Hlen. cbn in Hlen.
    assert (k = length h) as -> by lia.
    rewrite lookup_app_r in Hk by (rewrite length_insert; lia).
    rewrite length_insert, Nat.sub_diag in Hk. injection Hk as <-.
    cbn. repeat split. exists m. split; [reflexivity|].
    eapply lookup_lt_Some; eauto.
Qed.

Lemma expanded_length (h h1 : store) c :
  expanded h h1 c -> length h1 = S (length h) /\ c = length h.
Proof.
  intros (m & nd & a & Hm & -> & ->).
  rewrite length_app, length_insert. cbn. lia.
Qed.

Lemma rollouts_through_cons (e : rollout_record) log (k : nat) :
  rollouts_through (e :: log) k = hit k e + rollouts_through log k.
Proof. reflexivity. Qed.

Lemma reward_shares_cons (e : rollout_record) log (k : nat) :
  reward_shares (e :: log) k = share k e + reward_shares log k.
Proof. reflexivity. Qed.

(** A node no record mentions has no rollout and no share. *)
Lemma unrecorded (log : list rollout_record) (k : nat) :
  (forall e, e ∈ log -> k ∉ e.1) ->
  rollouts_through log k = 0 /\ reward_shares log k = 0.
Proof.
  induction log as [|e log IH]; intros Hnot; [auto|].
  rewrite rollouts_through_cons, reward_shares_cons.
  destruct IH as [-> ->].
  { intros e' He'. apply Hnot. apply list_elem_of_further, He'. }
  unfold hit, share.
  rewrite (index_of_not_elem k e.1) by (apply Hnot, list_elem_of_here).
  auto.
Qed.

Lemma expanded_children (h h1 : store) c k (ndk' : MCTS_Node) x :
  expanded h h1 c -> h1 !! k = Some ndk' -> x ∈ children ndk' ->
  (x = length h /\ (k < length h)%nat)
  \/ (exists ndk, h !! k = Some ndk /\ x ∈ children ndk).
Proof.
  intros (m & nd & a & Hm & -> & ->) Hk Hx.
  pose proof (lookup_lt_Some _ _ _ Hm) as Hmlt.
  destruct (decide (k < length h)%nat) as [Hlt|Hge].
  - rewrite lookup_app_l in Hk by (rewrite length_insert; exact Hlt).
    destruct (decide (k = m)) as [->|Hne].
    + rewrite list_lookup_insert_eq in Hk by exact Hlt.
      injection Hk as <-. cbn in Hx.
      apply elem_of_app in Hx as [Hx|Hx%list_elem_of_singleton]; eauto.
    + rewrite list_lookup_insert_ne in Hk by congruence. eauto.
  - pose proof (lookup_lt_Some _ _ _ Hk) as Hlen.
    rewrite length_app, length_insert in Hlen. cbn in Hlen.
    rewrite lookup_app_r in Hk by (rewrite length_insert; lia).
    rewrite length_insert in Hk.
    replace (k - length h)%nat with O in Hk by lia.
    injection Hk as <-. cbn in Hx. inversion Hx.
Qed.

Lemma invariant_expanded (h h1 : store) log c :
  tree_invariant h log -> expanded h h1 c -> tree_invariant h1 log.
Proof.
  intros (Hpos & Hold & Hyoung & Hlog & Hagree) Hexp.
  destruct (expanded_length h h1 c Hexp) as [Hlen _].
  split; [lia|]. split; [|split; [|split]].
  - intros n nd q Hn Hq.
    destruct (expanded_lookup h h1 c n nd Hexp Hn)
      as [(nd0 & Hn0 & Hpar & _)|(-> & _ & _ & m & Hpar & Hm)].
    + apply (Hold n nd0 q Hn0). congruence.
    + congruence.
  - intros n nd x Hn Hx. rewrite Hlen.
    destruct (expanded_children h h1 c n nd x Hexp Hn Hx)
      as [[-> Hlt]|(nd0 & Hn0 & Hx0)]; [lia|].
    specialize (Hyoung n nd0 x Hn0 Hx0). lia.
  - intros e k He Hk. rewrite Hlen. specialize (Hlog e k He Hk). lia.
  - intros k nd Hk.
    destruct (expanded_lookup h h1 c k nd Hexp Hk)
      as [(nd0 & Hk0 & _ & Hv & Hr)|(-> & Hv & Hr & _)].
    + rewrite Hv, Hr. apply (Hagree k nd0 Hk0).
    + destruct (unrecorded log (length h)) as [-> ->]; [|lia].
      intros e He Hin. specialize (Hlog e _ He Hin). lia.
Qed.

Lemma backed_up_children pth r k (nd : @MCTS_Node G) :
  children (backed_up pth r k nd) = children nd.
Proof. unfold backed_up. destruct (index_of k pth); reflexivity. Qed.

Lemma backed_up_parent pth r k (nd : @MCTS_Node G) :
  parent (backed_up pth r k nd) = parent nd.
Proof. unfold backed_up. destruct (index_of k pth); reflexivity. Qed.

Lemma invariant_backed_up (h1 h2 : store) log c r :
  tree_invariant h1 log -> (c < length h1)%nat ->
  backup (length h1) h1 c r = Ret h2 ->
  tree_invariant h2 ((root_path (length h1) h1 c, r) :: log).
Proof.
  intros (Hpos & Hold & Hyoung & Hlog & Hagree) Hc Hback.
  destruct (backup_effect (length h1) h1 c r Hold Hc Hc)
    as (h' & Hback' & Hlen & Hlook).
  rewrite Hback in Hback'. injection Hback' as <-.
  split; [lia|]. split; [|split; [|split]].
  - intros n nd q Hn Hq. rewrite Hlook in Hn.
    destruct (h1 !! n) as [nd1|] eqn:Hn1; [|discriminate].
    injection Hn as <-. apply (Hold n nd1 q Hn1).
    rewrite <- Hq. symmetry. apply backed_up_parent.
  - intros n nd x Hn Hx. rewrite Hlook in Hn.
    destruct (h1 !! n) as [nd1|] eqn:Hn1; [|discriminate].
    injection Hn as <-. rewrite backed_up_children in Hx.
    rewrite Hlen. eauto.
  - intros e k [->|He]%elem_of_cons Hk; rewrite Hlen.
    + apply (root_path_le h1 Hold) in Hk. lia.
    + eauto.
  - intros k nd Hk. rewrite Hlook in Hk.
    destruct (h1 !! k) as [nd1|] eqn:Hk1; [|discriminate].
    injection Hk as <-. destruct (Hagree k nd1 Hk1) as [Hv Hr].
    rewrite rollouts_through_cons, reward_shares_cons.
    unfold backed_up, hit, share. cbn [fst snd].
    destruct (index_of k (root_path (length h1) h1 c)) as [j|]; cbn; lia.
Qed.

(** The store [tree_policy] returns still satisfies the invariant, and
    the node it returns is in it. *)
Lemma invariant_tree_policy (h h1 : store) log fuel n oc :
  tree_invariant h log ->
  tree_policy uct_argmax fuel h n = Ret (h1, oc) ->
  exists c, oc = Some c /\ tree_invariant h1 log /\ (c < length h1)%nat.
Proof.
  intros Hinv Hpol.
  destruct (tree_policy_effect _ _ _ _ _ Hpol) as (c & -> & Hcase).
  exists c. split; [reflexivity|].
  destruct Hcase as [[-> Hc]|Hexp]; [auto|].
  split; [eapply invariant_expanded; eauto|].
  destruct (expanded_length h h1 c Hexp) as [-> ->]. lia.
Qed.

Lemma invariant_iteration (h h' : store) log new i :
  tree_invariant h log ->
  mcts_iteration_traced uct_argmax rollout h O i = Ret (h', new) ->
  tree_invariant h' (new ++ log).
Proof.
  intros Hinv. unfold mcts_iteration_traced.
  destruct (tree_policy uct_argmax (S (length h)) h 0) as [[h1 oc]| |] eqn:Hpol;
    cbn; try discriminate.
  destruct (invariant_tree_policy _ _ _ _ _ _ Hinv Hpol)
    as (c & -> & Hinv1 & Hc).
  destruct (h1 !! c) as [cn|]; [|discriminate].
  destruct (backup (length h1) h1 c (default_policy rollout i (node_state cn)))
    as [h2| |] eqn:Hback; cbn; try discriminate.
  intros [= <- <-]. cbn.
  eapply invariant_backed_up; eauto.
Qed.

Lemma invariant_trace (iters : list nat) :
  forall (h h' : store) log log',
    tree_invariant h log ->
    mcts_trace uct_argmax rollout iters h log O = Ret (h', log') ->
    tree_invariant h' log'.
Proof.
  induction iters as [|i rest IH]; intros h h' log log' Hinv; cbn [mcts_trace].
  - intros [= <- <-]. exact Hinv.
  - destruct (mcts_iteration_traced uct_argmax rollout h 0 i)
      as [[h1 new]| |] eqn:Hit; cbn; try discriminate.
    apply IH. eapply invariant_iteration; eauto.
Qed.

Lemma invariant_initial (s : state G) : tree_invariant [new_node s None] [].
Proof.
  split; [cbn; lia|]. split; [|split; [|split]].
  - intros [|n] nd q Hn Hq; [|discriminate]. injection Hn as <-. discriminate.
  - intros [|n] nd x Hn Hx; [|discriminate]. injection Hn as <-.
    inversion Hx.
  - intros e k He. inversion He.
  - intros [|k] nd Hk; [|discriminate]. injection Hk as <-. cbn. auto.
Qed.

(** The counters the model uses in place of Python's unbounded loops
    never run out: the descent of [tree_policy] moves to younger nodes
    only. *)
Lemma tree_policy_not_stuck (h : store) :
  children_younger h ->
  forall fuel n,
    (n < length h)%nat -> (length h - n < fuel)%nat ->
    tree_policy uct_argmax fuel h n <> Stuck.
Proof.
  intros Hyoung. induction fuel as [|fuel IH]; intros n Hn Hfuel; [lia|].
  cbn [tree_policy].
  destruct (lookup_lt_is_Some_2 h n Hn) as [nd Hnd]. rewrite Hnd.
  destruct (terminal_test (node_state nd)); [discriminate|].
  destruct (actions (node_state nd) !! length (children_actions nd));
    [discriminate|].
  unfold best_child.
  destruct (children nd) as [|c0 cs] eqn:Hcs; [discriminate|].
  destruct ((c0 :: cs) !! uct_argmax (visits nd) (map (stats h) (c0 :: cs)))
    as [c|] eqn:Hpick; [|discriminate].
  cbn. assert (c ∈ children nd) as Hin.
  { rewrite Hcs. apply list_elem_of_lookup. eauto. }
  specialize (Hyoung n nd c Hnd Hin). apply IH; lia.
Qed.

Lemma iteration_not_stuck (h : store) log i :
  tree_invariant h log ->
  mcts_iteration_traced uct_argmax rollout h O i <> Stuck.
Proof.
  intros Hinv. pose proof Hinv as (Hpos & _ & Hyoung & _).
  unfold mcts_iteration_traced.
  pose proof (tree_policy_not_stuck h Hyoung (S (length h)) O Hpos) as Hns.
  destruct (tree_policy uct_argmax (S (length h)) h 0) as [[h1 oc]| |] eqn:Hpol;
    cbn; [|discriminate|exfalso; apply Hns; [lia|reflexivity]].
  destruct (invariant_tree_policy _ _ _ _ _ _ Hinv Hpol)
    as (c & -> & Hinv1 & Hc).
  destruct (lookup_lt_is_Some_2 h1 c Hc) as [cn ->].
  destruct Hinv1 as (_ & Hold1 & _).
  destruct (backup_effect (length h1) h1 c
              (default_policy rollout i (node_state cn)) Hold1 Hc Hc)
    as (h2 & -> & _). discriminate.
Qed.

Lemma trace_not_stuck (iters : list nat) :
  forall (h : store) log,
    tree_invariant h log ->
    mcts_trace uct_argmax rollout iters h log O <> Stuck.
Proof.
  induction iters as [|i rest IH]; intros h log Hinv; cbn [mcts_trace];
    [discriminate|].
  pose proof (iteration_not_stuck h log i Hinv) as Hns.
  destruct (mcts_iteration_traced uct_argmax rollout h 0 i)
    as [[h1 new]| |] eqn:Hit; cbn; [|discriminate|congruence].
  apply IH. eapply invariant_iteration; eauto.
Qed.

(** The traced loop is the loop. *)
Lemma mcts_trace_loop (iters : list nat) :
  forall (h : store) log,
    match mcts_trace uct_argmax rollout iters h log O with
    | Ret (h', _) => mcts_loop uct_argmax rollout iters h O = Ret h'
    | Raise e => mcts_loop uct_argmax rollout iters h O = Raise e
    | Stuck => mcts_loop uct_argmax rollout iters h O = Stuck
    end.
Proof.
  induction iters as [|i rest IH]; intros h log; cbn [mcts_trace mcts_loop].
  - reflexivity.
  - unfold mcts_iteration_traced, mcts_iteration.
    destruct (tree_policy uct_argmax (S (length h)) h 0) as [[h1 [c|]]| |];
      cbn; try reflexivity.
    + destruct (h1 !! c) as [cn|]; cbn; [|reflexivity].
      destruct (backup _ h1 c _) as [h2| |]; cbn; try reflexivity.
      apply IH.
    + apply IH.
Qed.

(** C9, as the model has it.  Whenever the loop of [mcts] has run any
    number of passes, the store it holds comes with the record of the
    backpropagations completed so far, and every node's visit count is 1
    plus the number of those that went through it, while its reward
    total is the sum of what they carried, counted with the sign of the
    node's level on the path.  Nothing else moves the two counters; the
    total goes up or down with the sign. *)
Theorem mcts_counters (s : state G) (iters : list nat) (h : store) :
  mcts_loop uct_argmax rollout iters [new_node s None] O = Ret h ->
  exists log,
    mcts_trace uct_argmax rollout iters [new_node s None] [] O = Ret (h, log)
    /\ counters_agree h log.
Proof.
  intros Hloop.
  pose proof (mcts_trace_loop iters [new_node s None] []) as Htrace.
  destruct (mcts_trace uct_argmax rollout iters [new_node s None] [] 0)
    as [[h' log]| |] eqn:Hrun; rewrite Hloop in Htrace; try discriminate.
  injection Htrace as ->. exists log. split; [reflexivity|].
  eapply invariant_trace in Hrun; [|apply invariant_initial].
  apply Hrun.
Qed.

(** Neither the loop nor [mcts] itself can end in the model's own
    [Stuck]: every run returns or raises, as the Python run does. *)
Lemma mcts_loop_not_stuck (s : state G) (iters : list nat) :
  mcts_loop uct_argmax rollout iters [new_node s None] O <> Stuck.
Proof.
  pose proof (mcts_trace_loop iters [new_node s None] []) as Htrace.
  pose proof (trace_not_stuck iters [new_node s None] []
                (invariant_initial s)) as Hns.
  destruct (mcts_trace uct_argmax rollout iters [new_node s None] [] 0)
    as [[h' log]| |]; [rewrite Htrace|rewrite Htrace|congruence];
    discriminate.
Qed.

Lemma mcts_not_stuck (s : state G) (iter_limit : Z) :
  mcts uct_argmax rollout s iter_limit <> Stuck.
Proof.
  unfold mcts.
  pose proof (mcts_trace_loop (seq 0 (Z.to_nat iter_limit))
                [new_node s None] []) as Htrace.
  pose proof (trace_not_stuck (seq 0 (Z.to_nat iter_limit))
                [new_node s None] [] (invariant_initial s)) as Hns.
  destruct (mcts_trace uct_argmax rollout (seq 0 (Z.to_nat iter_limit))
              [new_node s None] [] 0) as [[h log]| |] eqn:Hrun;
    [|rewrite Htrace; discriminate|congruence].
  rewrite Htrace. cbn.
  apply invariant_trace in Hrun; [|apply invariant_initial].
  destruct Hrun as (Hpos & _).
  destruct (lookup_lt_is_Some_2 h O Hpos) as [rn ->].
  unfold best_child.
  repeat match goal with
         | |- Ret _ <> Stuck => discriminate
         | |- Raise _ <> Stuck => discriminate
         | |- context [match ?x with _ => _ end] => destruct x; cbn
         end.
Qed.

End TreeCounters.

Lemma mcts_counters_witness :
  match mcts_loop (G := TreeGame) first_child payoff_rollout [0; 1; 2]%nat
          [@new_node TreeGame playout_tree None] O with
  | Ret h =>
      exists log,
        mcts_trace (G := TreeGame) first_child payoff_rollout [0; 1; 2]%nat
          [@new_node TreeGame playout_tree None] [] O = Ret (h, log)
        /\ counters_agree h log
  | _ => False
  end.
Proof.
  destruct (mcts_loop (G := TreeGame) first_child payoff_rollout
              [0; 1; 2]%nat [@new_node TreeGame playout_tree None] O)
    as [h| |] eqn:Hrun.
  - apply (mcts_counters (G := TreeGame) first_child payoff_rollout
             playout_tree [0; 1; 2]%nat h Hrun).
  - vm_compute in Hrun. discriminate Hrun.
  - vm_compute in Hrun. discriminate Hrun.
Defined.

(** C9, as stated, fails: a total does go down.  One pass on
    [one_move_tree] expands the winning move, the rollout reports 1, and
    the backpropagation adds 1 to the child and -1 to the root, whose
    total drops from 0 to -1. *)
Lemma mcts_total_decreases :
  exists h' nd',
    mcts_iteration (G := TreeGame) first_child payoff_rollout
      [@new_node TreeGame one_move_tree None] O O = Ret h'
    /\ h' !! O = Some nd'
    /\ reward nd' = -1
    /\ reward nd' < reward (@new_node TreeGame one_move_tree None)
    /\ ~ totals_never_decrease (G := TreeGame) first_child payoff_rollout.
Proof.
  eexists. eexists. split; [vm_compute; reflexivity|].
  split; [reflexivity|]. split; [reflexivity|]. split; [reflexivity|].
  intros Hnever.
  pose proof (Hnever [@new_node TreeGame one_move_tree None] O _ O _ _
                eq_refl eq_refl eq_refl) as Hle.
  vm_compute in Hle. apply Hle. reflexivity.
Qed.

(** ** The lemmas above on concrete runs *)

Lemma search_terminates_witness :
  exists v,
    max_value (G := TreeGame) 0 3 two_reply_tree NegInf PosInf 2 = Some v.
Proof.
  destruct (search_terminates (G := TreeGame) 0 two_reply_tree 2
              NegInf PosInf) as [[v Hv] _].
  exists v. apply Hv. cbn. lia.
Defined.

Lemma alpha_beta_best_score_exact_witness :
  exists f,
    alpha_beta_frame (G := TreeGame) 0 3 tied_bound_tree 2 = Some f
    /\ best_score f = (minimax_root (G := TreeGame) 0 tied_bound_tree 2).1.
Proof.
  apply (alpha_beta_best_score_exact (G := TreeGame) 0 3 tied_bound_tree 2).
  vm_compute. lia.
Defined.

Lemma max_value_exact_witness :
  max_value (G := TreeGame) 0 3 two_reply_tree NegInf PosInf 2
  = Some (minimax_max (G := TreeGame) 0 (plies 2) two_reply_tree).
Proof.
  apply (max_value_exact (G := TreeGame) 0 3 two_reply_tree 2).
  vm_compute. lia.
Defined.

Lemma alpha_beta_search_no_actions_witness :
  alpha_beta_search (G := TreeGame) 1 0 (quiet 2 2) default_depth
  = Some NoMove.
Proof.
  apply (alpha_beta_search_no_actions (G := TreeGame) 1 0 (quiet 2 2)).
  reflexivity.
Defined.

Lemma get_action_no_actions_witness :
  get_action (G := TreeGame) first_child payoff_rollout 0 [] (leaf 1)
  = Ret ([], BestMoveList).
Proof.
  apply (get_action_no_actions (G := TreeGame) first_child payoff_rollout
           0 [] (leaf 1)); [cbn; lia | reflexivity].
Defined.

(** ** The move the root loop returns *)

Section ReturnedMove.
Context {G : Game}.
Variable p : Z.

Lemma ab_loop_move (eval : state G -> value -> value -> option value)
    (s : state G) :
  forall acts f f',
    ab_loop eval s acts f = Some f' ->
    best_move f' = best_move f
    \/ exists a, a ∈ acts /\ best_move f' = Move a.
Proof.
  induction acts as [|a rest IH]; intros f f' Hloop; cbn in Hloop.
  - injection Hloop as <-. auto.
  - destruct (eval (result s a) (f_alpha f) (f_beta f)) as [v|];
      [|discriminate].
    destruct (v >=?v best_score f); apply IH in Hloop; cbn in Hloop;
      destruct Hloop as [Hsame|(a' & Hin & Hmove)].
    + right. exists a. split; [apply list_elem_of_here|exact Hsame].
    + right. exists a'. split; [apply list_elem_of_further, Hin|exact Hmove].
    + auto.
    + right. exists a'. split; [apply list_elem_of_further, Hin|exact Hmove].
Qed.

(** With at least one legal action at the root and fuel for the depth,
    [alpha_beta_search] returns one of the root's legal actions, never
    the tuple [(-1, -1)]: the first value already passes
    [v >= float("-inf")]. *)
Theorem alpha_beta_search_returns_legal_action fuel (s : state G) depth :
  (Z.to_nat depth < fuel)%nat -> actions s <> [] ->
  exists a, a ∈ actions s /\ alpha_beta_search p fuel s depth = Some (Move a).
Proof.
  intros Hfuel Hne.
  destruct (alpha_beta_frame_returns p s depth) as [f Hf].
  specialize (Hf fuel Hfuel).
  unfold alpha_beta_search. rewrite Hf. cbn.
  unfold alpha_beta_frame in Hf.
  destruct (actions s) as [|a rest]; [congruence|]. cbn in Hf.
  destruct (min_value p fuel (result s a) NegInf PosInf (depth - 1)) as [v|];
    [|discriminate].
  change (v >=?v NegInf) with true in Hf. cbv iota in Hf.
  apply ab_loop_move in Hf. cbn in Hf.
  destruct Hf as [Hsame|(a' & Hin & Hmove)].
  - exists a. split; [apply list_elem_of_here|]. congruence.
  - exists a'. split; [apply list_elem_of_further, Hin|]. congruence.
Qed.

End ReturnedMove.

Lemma alpha_beta_search_returns_legal_action_witness :
  exists a,
    a ∈ actions (g := TreeGame) two_reply_tree
    /\ alpha_beta_search (G := TreeGame) 0 4 two_reply_tree default_depth
       = Some (Move a).
Proof.
  apply (alpha_beta_search_returns_legal_action (G := TreeGame) 0 4
           two_reply_tree default_depth); [vm_compute; lia | discriminate].
Defined.

(** ** What a pruned value says about the exhaustive one *)

Section Windows.
Context {G : Game}.
Variable p : Z.

(** Whatever the window, [max_value] returns, and its result bounds the
    exhaustive value: above [alpha] it is a lower bound, below [beta] an
    upper bound, and strictly inside the window it is the exhaustive
    value. *)
Theorem max_value_window fuel (s : state G) alpha beta depth :
  (Z.to_nat depth < fuel)%nat ->
  exists r,
    max_value p fuel s alpha beta depth = Some r
    /\ (alpha <v r -> r <=v minimax_max p (plies depth) s)
    /\ (r <v beta -> minimax_max p (plies depth) s <=v r)
    /\ (alpha <v r -> r <v beta -> r = minimax_max p (plies depth) s).
Proof.
  intros Hfuel. destruct (max_value_returns p depth s alpha beta) as [r Hr].
  specialize (Hr fuel Hfuel). exists r. split; [exact Hr|].
  apply (value_sound p fuel depth) in Hr. destruct Hr as [Hlow Hupp].
  split; [exact Hlow|]. split; [exact Hupp|].
  intros Ha Hb. apply le_antisym; auto.
Qed.

(** The same for [min_value]. *)
Theorem min_value_window fuel (s : state G) alpha beta depth :
  (Z.to_nat depth < fuel)%nat ->
  exists r,
    min_value p fuel s alpha beta depth = Some r
    /\ (alpha <v r -> r <=v minimax_min p (plies depth) s)
    /\ (r <v beta -> minimax_min p (plies depth) s <=v r)
    /\ (alpha <v r -> r <v beta -> r = minimax_min p (plies depth) s).
Proof.
  intros Hfuel. destruct (min_value_returns p depth s alpha beta) as [r Hr].
  specialize (Hr fuel Hfuel). exists r. split; [exact Hr|].
  apply (value_sound p fuel depth) in Hr. destruct Hr as [Hlow Hupp].
  split; [exact Hlow|]. split; [exact Hupp|].
  intros Ha Hb. apply le_antisym; auto.
Qed.

(** With the full window [min_value] returns the exhaustive value. *)
Theorem min_value_exact fuel (s : state G) depth :
  (Z.to_nat depth < fuel)%nat ->
  min_value p fuel s NegInf PosInf depth
  = Some (minimax_min p (plies depth) s).
Proof.
  intros Hfuel. destruct (min_value_returns p depth s NegInf PosInf) as [r Hr].
  specialize (Hr fuel Hfuel). rewrite Hr. f_equal.
  apply (value_sound p fuel depth) in Hr. destruct Hr as [Hlow Hupp].
  generalize dependent (minimax_min p (plies depth) s). intros t Hlow Hupp.
  apply le_antisym; value_order.
Qed.

(** A state in play that offers no action, searched with depth left:
    the loops never run, so [max_value] returns [-inf] and [min_value]
    returns [+inf], whatever the window and whatever [score] would
    say. *)
Theorem value_without_actions fuel (s : state G) alpha beta depth :
  (0 < fuel)%nat -> terminal_test s = false -> 0 < depth ->
  actions s = [] ->
  max_value p fuel s alpha beta depth = Some NegInf
  /\ min_value p fuel s alpha beta depth = Some PosInf.
Proof.
  intros Hfuel Hterm Hdepth Hnone. destruct fuel as [|fuel]; [lia|].
  rewrite max_value_step, min_value_step, Hterm, Hnone.
  destruct (Z.leb_spec depth 0); [lia|]. split; reflexivity.
Qed.

End Windows.

Lemma max_value_window_witness :
  exists r,
    max_value (G := TreeGame) 0 2 (fork [quiet 5 0; quiet 7 0])
      (Fin 1) (Fin 4) 1 = Some r
    /\ (Fin 1 <v r ->
        r <=v minimax_max (G := TreeGame) 0 (plies 1)
                (fork [quiet 5 0; quiet 7 0]))
    /\ (r <v Fin 4 ->
        minimax_max (G := TreeGame) 0 (plies 1)
          (fork [quiet 5 0; quiet 7 0]) <=v r)
    /\ (Fin 1 <v r -> r <v Fin 4 ->
        r = minimax_max (G := TreeGame) 0 (plies 1)
              (fork [quiet 5 0; quiet 7 0])).
Proof.
  apply (max_value_window (G := TreeGame) 0 2 (fork [quiet 5 0; quiet 7 0])
           (Fin 1) (Fin 4) 1).
  vm_compute. lia.
Defined.

Lemma min_value_window_witness :
  exists r,
    min_value (G := TreeGame) 0 2 (fork [quiet 3 0; quiet 1 0])
      (Fin 3) PosInf 1 = Some r
    /\ (Fin 3 <v r ->
        r <=v minimax_min (G := TreeGame) 0 (plies 1)
                (fork [quiet 3 0; quiet 1 0]))
    /\ (r <v PosInf ->
        minimax_min (G := TreeGame) 0 (plies 1)
          (fork [quiet 3 0; quiet 1 0]) <=v r)
    /\ (Fin 3 <v r -> r <v PosInf ->
        r = minimax_min (G := TreeGame) 0 (plies 1)
              (fork [quiet 3 0; quiet 1 0])).
Proof.
  apply (min_value_window (G := TreeGame) 0 2 (fork [quiet 3 0; quiet 1 0])
           (Fin 3) PosInf 1).
  vm_compute. lia.
Defined.

Lemma min_value_exact_witness :
  min_value (G := TreeGame) 0 2 (fork [quiet 3 0; quiet 1 0]) NegInf PosInf 1
  = Some (minimax_min (G := TreeGame) 0 (plies 1)
            (fork [quiet 3 0; quiet 1 0])).
Proof.
  apply (min_value_exact (G := TreeGame) 0 2 (fork [quiet 3 0; quiet 1 0]) 1).
  vm_compute. lia.
Defined.

Lemma value_without_actions_witness :
  max_value (G := TreeGame) 0 1 (quiet 4 1) (Fin 0) (Fin 9) 2 = Some NegInf
  /\ min_value (G := TreeGame) 0 1 (quiet 4 1) (Fin 0) (Fin 9) 2
     = Some PosInf.
Proof.
  apply (value_without_actions (G := TreeGame) 0 1 (quiet 4 1)
           (Fin 0) (Fin 9) 2); [lia | reflexivity | lia | reflexivity].
Defined.

(** ** Searches that stop one ply below the root

    With [depth <= 1] the children of the root are evaluated at once
    ([utility] if terminal, [score] otherwise), the window plays no part,
    and the drivers can be read off the children's values. *)

Section Shallow.
Context {G : Game}.
Variable p : Z.

Abbreviation evaluator := (state G -> value -> value -> option value)
  (only parsing).

(** An evaluator that ignores the window. *)
Abbreviation exact eval tval :=
  (forall (s' : state G) (a b : value), eval s' a b = Some (tval s'))
  (only parsing).

Lemma min_value_leaf fuel (s : state G) alpha beta depth :
  (0 < fuel)%nat -> depth <= 0 ->
  min_value p fuel s alpha beta depth = Some (minimax_min p 0 s).
Proof.
  intros Hfuel Hdepth. destruct fuel as [|fuel]; [lia|].
  rewrite min_value_step. cbn [minimax_min].
  destruct (terminal_test s); [reflexivity|].
  destruct (Z.leb_spec depth 0); [reflexivity|lia].
Qed.

Lemma ab_loop_keeps (eval : evaluator) tval (s : state G) :
  exact eval tval ->
  forall l f,
    (forall b, b ∈ l -> tval (result s b) <v best_score f) ->
    exists f', ab_loop eval s l f = Some f'
               /\ best_move f' = best_move f
               /\ best_score f' = best_score f.
Proof.
  intros Hexact. induction l as [|b l IH]; intros f Hlow; cbn.
  - eauto.
  - rewrite Hexact.
    pose proof (Hlow b (list_elem_of_here _ _)) as Hb.
    destruct (geb_spec (tval (result s b)) (best_score f))
      as [[_ Hge]|[-> _]].
    + exfalso. revert Hb Hge.
      generalize (tval (result s b)), (best_score f). intros x y.
      value_order.
    + destruct (IH (mkFrame (Value.max (f_alpha f) (tval (result s b)))
                      (f_beta f) (best_score f) (best_move f)))
        as (f' & Hloop & Hm & Hs).
      { cbn. intros b' Hb'. apply Hlow, list_elem_of_further, Hb'. }
      exists f'. auto.
Qed.

Lemma ab_loop_last_best (eval : evaluator) tval (s : state G) a l2 :
  exact eval tval ->
  (forall b, b ∈ l2 -> tval (result s b) <v tval (result s a)) ->
  forall l1 f,
    best_score f <=v tval (result s a) ->
    (forall b, b ∈ l1 -> tval (result s b) <=v tval (result s a)) ->
    exists f', ab_loop eval s (l1 ++ a :: l2) f = Some f'
               /\ best_move f' = Move a
               /\ best_score f' = tval (result s a).
Proof.
  intros Hexact Hl2. induction l1 as [|b l1 IH]; intros f Hf Hl1; cbn.
  - rewrite Hexact.
    destruct (geb_spec (tval (result s a)) (best_score f))
      as [[-> _]|[_ Hlt]].
    + destruct (ab_loop_keeps eval tval s Hexact l2
                  (mkFrame (Value.max (f_alpha f) (tval (result s a)))
                     (f_beta f) (tval (result s a)) (Move a)))
        as (f' & -> & Hm & Hs); [exact Hl2|]. eauto.
    + exfalso. revert Hf Hlt.
      generalize (tval (result s a)), (best_score f). intros x y.
      value_order.
  - rewrite Hexact.
    pose proof (Hl1 b (list_elem_of_here _ _)) as Hb.
    destruct (tval (result s b) >=?v best_score f); apply IH; cbn;
      try assumption;
      intros b' Hb'; apply Hl1, list_elem_of_further, Hb'.
Qed.

(** With [depth <= 1], [alpha_beta_search] returns the last of the root
    actions whose child has the greatest value: an action whose child is
    worth at least as much as every earlier child and strictly more than
    every later one. *)
Theorem alpha_beta_search_shallow fuel (s : state G) depth l1 a l2 :
  (0 < fuel)%nat -> depth <= 1 ->
  actions s = l1 ++ a :: l2 ->
  (forall b, b ∈ l1 ->
     minimax_min p 0 (result s b) <=v minimax_min p 0 (result s a)) ->
  (forall b, b ∈ l2 ->
     minimax_min p 0 (result s b) <v minimax_min p 0 (result s a)) ->
  alpha_beta_search p fuel s depth = Some (Move a).
Proof.
  intros Hfuel Hdepth Hacts Hl1 Hl2.
  unfold alpha_beta_search, alpha_beta_frame. rewrite Hacts.
  destruct (ab_loop_last_best
              (fun s' x y => min_value p fuel s' x y (depth - 1))
              (minimax_min p 0) s a l2) with (l1 := l1) (f := @frame0 G)
    as (f' & -> & Hmove & _); try assumption.
  - intros s' x y. apply min_value_leaf; lia.
  - cbn. exact I.
  - cbn. f_equal. exact Hmove.
Qed.

Lemma negamax_loop_move (eval : evaluator) (s : state G) :
  forall acts f f',
    negamax_loop eval s acts f = Some f' ->
    best_move f' = best_move f
    \/ exists a, a ∈ acts /\ best_move f' = Move a.
Proof.
  induction acts as [|a rest IH]; intros f f' Hloop; cbn in Hloop.
  - injection Hloop as <-. auto.
  - destruct (eval _ _ _) as [v|]; [|discriminate].
    destruct (Value.max (f_alpha f) v >=?v f_beta f).
    + injection Hloop as <-. destruct (v >=?v best_score f); cbn; [|auto].
      right. exists a. split; [apply list_elem_of_here|reflexivity].
    + apply IH in Hloop. destruct (v >=?v best_score f); cbn in Hloop;
        destruct Hloop as [Hsame|(a' & Hin & Hmove)].
      * right. exists a. split; [apply list_elem_of_here|exact Hsame].
      * right. exists a'. split; [apply list_elem_of_further, Hin|exact Hmove].
      * auto.
      * right. exists a'. split; [apply list_elem_of_further, Hin|exact Hmove].
Qed.

Lemma negamax_loop_first (eval : evaluator) (s : state G) a rest f f' :
  best_score f = NegInf ->
  negamax_loop eval s (a :: rest) f = Some f' ->
  exists a', a' ∈ a :: rest /\ best_move f' = Move a'.
Proof.
  intros Hbs Hloop. cbn [negamax_loop] in Hloop.
  destruct (eval _ _ _) as [v|]; [|discriminate].
  rewrite Hbs in Hloop. cbv zeta in Hloop.
  change (v >=?v NegInf) with true in Hloop. cbv iota in Hloop.
  destruct (Value.max (f_alpha f) v >=?v f_beta f).
  - injection Hloop as <-. exists a. split; [apply list_elem_of_here|].
    reflexivity.
  - apply negamax_loop_move in Hloop. cbn in Hloop.
    destruct Hloop as [Hsame|(a' & Hin & Hmove)].
    + exists a. split; [apply list_elem_of_here|exact Hsame].
    + exists a'. split; [apply list_elem_of_further, Hin|exact Hmove].
Qed.

(** What [NegamaxAlphaBeta] hands back: a number, the utility of the
    state, when [depth == 0] or the state is terminal; otherwise a move,
    which is the tuple [(-1, -1)] when the state offers no action and one
    of its legal actions when it does. *)
Theorem NegamaxAlphaBeta_result fuel (s : state G) depth :
  (Z.to_nat depth < fuel)%nat ->
  (depth = 0 \/ terminal_test s = true ->
   NegamaxAlphaBeta p fuel s depth = Some (Utility (utility s p)))
  /\ (depth <> 0 -> terminal_test s = false -> actions s = [] ->
      NegamaxAlphaBeta p fuel s depth = Some (Best NoMove))
  /\ (depth <> 0 -> terminal_test s = false -> actions s <> [] ->
      exists a, a ∈ actions s
                /\ NegamaxAlphaBeta p fuel s depth = Some (Best (Move a))).
Proof.
  intros Hfuel. unfold NegamaxAlphaBeta. split; [|split].
  - intros [-> | ->]; [reflexivity|]. rewrite orb_true_r. reflexivity.
  - intros Hd Hterm Hnone. rewrite Hterm, Hnone.
    destruct (Z.eqb_spec depth 0); [contradiction|]. reflexivity.
  - intros Hd Hterm Hne. rewrite Hterm.
    destruct (Z.eqb_spec depth 0); [contradiction|]. cbn [orb].
    destruct (negamax_loop_total
                (fun s' a b => min_value p fuel s' a b (depth - 1))
                s (actions s)) with (f := @frame0 G) as [f Hf].
    { intros s' a b.
      destruct (min_value_returns p (depth - 1) s' a b) as [v Hv].
      exists v. apply Hv. lia. }
    rewrite Hf. cbn.
    destruct (actions s) as [|a rest]; [congruence|].
    destruct (negamax_loop_first _ s a rest frame0 f eq_refl Hf)
      as (a' & Hin & Hmove).
    exists a'. split; [exact Hin|]. congruence.
Qed.

Lemma negamax_loop_is_ab_loop (eval : evaluator) tval (s : state G) :
  exact eval tval ->
  forall acts f,
    (forall b, b ∈ acts -> tval (result s b) <v PosInf) ->
    f_beta f = PosInf -> f_alpha f <v PosInf ->
    negamax_loop eval s acts f = ab_loop eval s acts f.
Proof.
  intros Hexact. induction acts as [|b acts IH]; intros f Hfin Hbeta Halpha;
    cbn; [reflexivity|].
  rewrite !Hexact, Hbeta.
  pose proof (Hfin b (list_elem_of_here _ _)) as Hb.
  assert (Value.max (f_alpha f) (tval (result s b)) <v PosInf) as Hmax.
  { revert Halpha Hb. generalize (f_alpha f), (tval (result s b)).
    intros x y Hx Hy. value_split; assumption. }
  destruct (geb_spec (Value.max (f_alpha f) (tval (result s b))) PosInf)
    as [[_ Hge]|[-> _]].
  { exfalso. revert Hmax Hge.
    generalize (Value.max (f_alpha f) (tval (result s b))). intros x.
    value_order. }
  destruct (tval (result s b) >=?v best_score f); apply IH; cbn;
    try assumption; try reflexivity;
    intros b' Hb'; apply Hfin, list_elem_of_further, Hb'.
Qed.

(** With [depth <= 1] (and not 0), on a state in play none of whose
    children is worth [+inf], [NegamaxAlphaBeta] returns the move
    [alpha_beta_search] returns: the negated bounds it passes on are
    never looked at, and its [break] never fires. *)
Theorem negamax_agrees_when_shallow fuel (s : state G) depth :
  (0 < fuel)%nat -> depth <= 1 -> depth <> 0 ->
  terminal_test s = false ->
  (forall b, b ∈ actions s -> minimax_min p 0 (result s b) <v PosInf) ->
  NegamaxAlphaBeta p fuel s depth
  = option_map Best (alpha_beta_search p fuel s depth).
Proof.
  intros Hfuel Hdepth Hd Hterm Hfin.
  unfold NegamaxAlphaBeta, alpha_beta_search, alpha_beta_frame.
  rewrite Hterm. destruct (Z.eqb_spec depth 0); [contradiction|]. cbn [orb].
  rewrite (negamax_loop_is_ab_loop _ (minimax_min p 0) s).
  - destruct (ab_loop _ s (actions s) frame0); reflexivity.
  - intros s' x y. apply min_value_leaf; lia.
  - exact Hfin.
  - reflexivity.
  - exact I.
Qed.

End Shallow.

Lemma alpha_beta_search_shallow_witness :
  alpha_beta_search (G := TreeGame) 0 1
    (fork [quiet 2 0; quiet 4 0; quiet 4 0; quiet 1 0]) 1
  = Some (Move 2%nat).
Proof.
  apply (alpha_beta_search_shallow (G := TreeGame) 0 1
           (fork [quiet 2 0; quiet 4 0; quiet 4 0; quiet 1 0]) 1
           [0; 1]%nat 2%nat [3%nat]); [lia | lia | reflexivity | |].
  - intros b Hb. apply list_elem_of_In in Hb.
    destruct Hb as [<-|[<-|[]]]; vm_compute; discriminate.
  - intros b Hb. apply list_elem_of_In in Hb.
    destruct Hb as [<-|[]]; vm_compute; reflexivity.
Defined.

Lemma NegamaxAlphaBeta_result_witness :
  NegamaxAlphaBeta (G := TreeGame) 0 4 (leaf 1) default_depth
  = Some (Utility (Fin 1)).
Proof.
  apply (NegamaxAlphaBeta_result (G := TreeGame) 0 4 (leaf 1) default_depth);
    [vm_compute; lia | right; reflexivity].
Defined.

Lemma negamax_agrees_when_shallow_witness :
  NegamaxAlphaBeta (G := TreeGame) 0 1 tie_tree 1
  = option_map Best (alpha_beta_search (G := TreeGame) 0 1 tie_tree 1).
Proof.
  apply (negamax_agrees_when_shallow (G := TreeGame) 0 1 tie_tree 1);
    [lia | lia | lia | reflexivity |].
  intros b Hb. apply list_elem_of_In in Hb.
  destruct Hb as [<-|[<-|[]]]; exact I.
Defined.

(** ** The shape of the search tree *)

Section TreeShape.
Context {G : Game}.
Variable uct_argmax : Z -> list (Z * Z) -> nat.
Variable rollout : nat -> state G -> Z.

Abbreviation store := (list (@MCTS_Node G)).

Lemma tree_policy_next (fuel : nat) :
  forall (h : store) n h1 oc,
    tree_policy uct_argmax fuel h n = Ret (h1, oc) ->
    exists c, oc = Some c
              /\ ((h1 = h /\ (c < length h)%nat) \/ expanded_next h h1 c).
Proof.
  induction fuel as [|fuel IH]; intros h n h1 oc; cbn [tree_policy];
    [discriminate|].
  destruct (h !! n) as [nd|] eqn:Hn; [|discriminate].
  destruct (terminal_test (node_state nd)).
  { intros [= <- <-]. exists n. split; [reflexivity|]. left.
    split; [reflexivity|]. eapply lookup_lt_Some; eauto. }
  destruct (actions (node_state nd) !! length (children_actions nd))
    as [a|] eqn:Ha.
  { intros [= <- <-]. exists (length h). split; [reflexivity|]. right.
    exists n, nd, a. auto. }
  destruct (best_child uct_argmax h nd) as [c| |]; cbn; try discriminate.
  apply IH.
Qed.

Lemma expanded_next_expanded (h h1 : store) c :
  expanded_next h h1 c -> expanded h h1 c.
Proof. intros (m & nd & a & Hm & Hc & _ & Hh1). exists m, nd, a. auto. Qed.

(** Reading the store after an expansion. *)
Lemma expansion_lookup (h : store) m (nd child : MCTS_Node) a k :
  h !! m = Some nd ->
  (<[m := add_child nd (length h) a]> h ++ [child]) !! k
  = if decide (k = length h) then Some child
    else if decide (k = m) then Some (add_child nd (length h) a)
         else h !! k.
Proof.
  intros Hm. pose proof (lookup_lt_Some _ _ _ Hm) as Hmlt.
  destruct (decide (k = length h)) as [->|Hk].
  - rewrite lookup_app_r by (rewrite length_insert; lia).
    rewrite length_insert, Nat.sub_diag. reflexivity.
  - destruct (decide (k < length h)%nat) as [Hlt|Hge].
    + rewrite lookup_app_l by (rewrite length_insert; exact Hlt).
      destruct (decide (k = m)) as [->|Hne].
      * apply list_lookup_insert_eq. exact Hlt.
      * apply list_lookup_insert_ne. congruence.
    + destruct (decide (k = m)) as [->|Hne]; [lia|].
      rewrite (lookup_ge_None_2 h k) by lia.
      apply lookup_ge_None_2. rewrite length_app, length_insert. cbn. lia.
Qed.

Lemma mirrors_expanded (h h1 : store) c :
  mirrors_game h -> expanded_next h h1 c -> mirrors_game h1.
Proof.
  intros Hmir (m & nd & a & Hm & -> & Ha & ->) n ndn Hn.
  pose proof (lookup_lt_Some _ _ _ Hm) as Hmlt.
  rewrite (expansion_lookup h m nd _ a n Hm) in Hn.
  assert (forall k ndk, h !! k = Some ndk ->
            exists ndk', (<[m := add_child nd (length h) a]> h
                            ++ [new_node (result (node_state nd) a) (Some m)])
                           !! k = Some ndk'
                         /\ node_state ndk' = node_state ndk
                         /\ parent ndk' = parent ndk) as Hkeep.
  { intros k ndk Hk. pose proof (lookup_lt_Some _ _ _ Hk) as Hklt.
    rewrite (expansion_lookup h m nd _ a k Hm).
    destruct (decide (k = length h)); [lia|].
    destruct (decide (k = m)) as [->|]; [|eauto].
    rewrite Hm in Hk. injection Hk as <-. eauto. }
  destruct (decide (n = length h)) as [->|Hnlen].
  { injection Hn as <-. cbn. split; [reflexivity|]. split; [reflexivity|].
    intros i c0 a0 Hc0. discriminate. }
  destruct (decide (n = m)) as [->|Hnm].
  - injection Hn as <-. destruct (Hmir m nd Hm) as (Hlen & Hpre & Hkids).
    cbn [add_child children children_actions node_state].
    split; [rewrite !length_app, Hlen; reflexivity|]. split.
    + rewrite length_app. cbn [length].
      replace (length (children_actions nd) + 1)%nat
        with (S (length (children_actions nd))) by lia.
      rewrite (take_S_r _ _ a Ha), <- Hpre. reflexivity.
    + intros i c0 a0 Hc0 Ha0.
      destruct (decide (i < length (children nd))%nat) as [Hi|Hi].
      * rewrite lookup_app_l in Hc0 by exact Hi.
        rewrite lookup_app_l in Ha0 by (rewrite <- Hlen; exact Hi).
        destruct (Hkids i c0 a0 Hc0 Ha0) as (cn & Hcn & Hst & Hpar).
        destruct (Hkeep c0 cn Hcn) as (cn' & Hcn' & Hst' & Hpar').
        exists cn'. split; [exact Hcn'|]. split; congruence.
      * rewrite lookup_app_r in Hc0 by lia.
        rewrite lookup_app_r in Ha0 by lia.
        rewrite <- Hlen in Ha0.
        destruct (i - length (children nd))%nat as [|j]; [|discriminate].
        injection Hc0 as <-. injection Ha0 as <-.
        exists (new_node (result (node_state nd) a) (Some m)).
        split; [|split; reflexivity].
        rewrite (expansion_lookup h m nd _ a (length h) Hm).
        destruct (decide (length h = length h)); [reflexivity|congruence].
  - destruct (Hmir n ndn Hn) as (Hlen & Hpre & Hkids).
    split; [exact Hlen|]. split; [exact Hpre|].
    intros i c0 a0 Hc0 Ha0.
    destruct (Hkids i c0 a0 Hc0 Ha0) as (cn & Hcn & Hst & Hpar).
    destruct (Hkeep c0 cn Hcn) as (cn' & Hcn' & Hst' & Hpar').
    exists cn'. split; [exact Hcn'|]. split; congruence.
Qed.

Lemma rooted_expanded (s : state G) (h h1 : store) c :
  rooted_at s h -> expanded_next h h1 c -> rooted_at s h1.
Proof.
  intros [(rn & Hroot & Hst & Hpar) Honly] (m & nd & a & Hm & -> & Ha & ->).
  pose proof (lookup_lt_Some _ _ _ Hm) as Hmlt.
  pose proof (lookup_lt_Some _ _ _ Hroot) as Hpos.
  split.
  - rewrite (expansion_lookup h m nd _ a O Hm).
    destruct (decide (O = length h)); [lia|].
    destruct (decide (O = m)) as [<-|]; [|eauto].
    rewrite Hm in Hroot. injection Hroot as <-. eauto.
  - intros n ndn Hn Hnone.
    rewrite (expansion_lookup h m nd _ a n Hm) in Hn.
    destruct (decide (n = length h)); [injection Hn as <-; discriminate|].
    destruct (decide (n = m)) as [->|]; [|eauto].
    injection Hn as <-. eauto.
Qed.

Lemma backed_up_state pth r k (nd : @MCTS_Node G) :
  node_state (backed_up pth r k nd) = node_state nd.
Proof. unfold backed_up. destruct (index_of k pth); reflexivity. Qed.

Lemma backed_up_actions pth r k (nd : @MCTS_Node G) :
  children_actions (backed_up pth r k nd) = children_actions nd.
Proof. unfold backed_up. destruct (index_of k pth); reflexivity. Qed.

Lemma mirrors_backed_up (h1 h2 : store) pth r :
  (forall k, h2 !! k = backed_up pth r k <$> h1 !! k) ->
  mirrors_game h1 -> mirrors_game h2.
Proof.
  intros Hlook Hmir n nd Hn. rewrite Hlook in Hn.
  destruct (h1 !! n) as [nd1|] eqn:Hn1; [|discriminate].
  injection Hn as <-. destruct (Hmir n nd1 Hn1) as (Hlen & Hpre & Hkids).
  rewrite backed_up_children, backed_up_actions, backed_up_state.
  split; [exact Hlen|]. split; [exact Hpre|].
  intros i c a Hc Ha. destruct (Hkids i c a Hc Ha) as (cn & Hcn & Hst & Hpar).
  exists (backed_up pth r c cn). rewrite Hlook, Hcn.
  rewrite backed_up_state, backed_up_parent. auto.
Qed.

Lemma rooted_backed_up (s : state G) (h1 h2 : store) pth r :
  (forall k, h2 !! k = backed_up pth r k <$> h1 !! k) ->
  rooted_at s h1 -> rooted_at s h2.
Proof.
  intros Hlook [(rn & Hroot & Hst & Hpar) Honly]. split.
  - exists (backed_up pth r O rn). rewrite Hlook, Hroot.
    rewrite backed_up_state, backed_up_parent. auto.
  - intros n nd Hn Hnone. rewrite Hlook in Hn.
    destruct (h1 !! n) as [nd1|] eqn:Hn1; [|discriminate].
    injection Hn as <-. rewrite backed_up_parent in Hnone. eauto.
Qed.

(** Every path to the root ends at node 0. *)
Lemma root_path_reaches_root (s : state G) (h : store) :
  parents_older h -> rooted_at s h ->
  forall fuel n, (n < fuel)%nat -> (n < length h)%nat ->
    O ∈ root_path fuel h n.
Proof.
  intros Hold [_ Honly]. induction fuel as [|fuel IH]; intros n Hfuel Hn;
    [lia|].
  cbn [root_path]. destruct (lookup_lt_is_Some_2 h n Hn) as [nd Hnd].
  rewrite Hnd. destruct (parent nd) as [q|] eqn:Hq.
  - pose proof (Hold n nd q Hnd Hq). apply list_elem_of_further, IH; lia.
  - rewrite (Honly n nd Hnd Hq). apply list_elem_of_here.
Qed.

(** One pass of the traced loop, taken apart. *)
Lemma iteration_traced_steps (h h' : store) new i :
  mcts_iteration_traced uct_argmax rollout h O i = Ret (h', new) ->
  exists h1 c cn,
    ((h1 = h /\ (c < length h)%nat) \/ expanded_next h h1 c)
    /\ h1 !! c = Some cn
    /\ backup (length h1) h1 c (default_policy rollout i (node_state cn))
       = Ret h'
    /\ new = [(root_path (length h1) h1 c,
               default_policy rollout i (node_state cn))].
Proof.
  unfold mcts_iteration_traced.
  destruct (tree_policy uct_argmax (S (length h)) h 0) as [[h1 oc]| |] eqn:Hpol;
    cbn; try discriminate.
  destruct (tree_policy_next _ _ _ _ _ Hpol) as (c & -> & Hcase).
  destruct (h1 !! c) as [cn|] eqn:Hc; [|discriminate].
  destruct (backup (length h1) h1 c (default_policy rollout i (node_state cn)))
    as [h2| |] eqn:Hback; cbn; try discriminate.
  intros [= <- <-]. exists h1, c, cn. auto.
Qed.

Lemma shape_iteration (s : state G) (h h' : store) log new i :
  tree_invariant h log -> shape_invariant s h log ->
  mcts_iteration_traced uct_argmax rollout h O i = Ret (h', new) ->
  shape_invariant s h' (new ++ log)
  /\ length new = 1%nat /\ (length h' <= S (length h))%nat.
Proof.
  intros Hinv (Hmir & Hroot & Hlog) Hit.
  destruct (iteration_traced_steps h h' new i Hit)
    as (h1 & c & cn & Hcase & Hc & Hback & ->).
  assert (tree_invariant h1 log /\ mirrors_game h1 /\ rooted_at s h1
          /\ (length h1 <= S (length h))%nat) as (Hinv1 & Hmir1 & Hroot1 & Hlen1).
  { destruct Hcase as [[-> _]|Hexp]; [auto|].
    split; [eapply invariant_expanded, expanded_next_expanded; eauto|].
    split; [eapply mirrors_expanded; eauto|].
    split; [eapply rooted_expanded; eauto|].
    destruct (expanded_length h h1 c (expanded_next_expanded _ _ _ Hexp))
      as [-> _]. lia. }
  pose proof (lookup_lt_Some _ _ _ Hc) as Hclt.
  destruct Hinv1 as (_ & Hold1 & _).
  destruct (backup_effect (length h1) h1 c
              (default_policy rollout i (node_state cn)) Hold1 Hclt Hclt)
    as (h2 & Hback2 & Hlen2 & Hlook).
  rewrite Hback in Hback2. injection Hback2 as <-.
  split; [|split; [reflexivity|lia]].
  split; [eapply mirrors_backed_up; eauto|].
  split; [eapply rooted_backed_up; eauto|].
  intros e [->|He]%elem_of_cons; [|auto]. cbn [fst].
  eapply root_path_reaches_root; eauto.
Qed.

Lemma shape_trace (s : state G) (iters : list nat) :
  forall (h h' : store) log log',
    tree_invariant h log -> shape_invariant s h log ->
    mcts_trace uct_argmax rollout iters h log O = Ret (h', log') ->
    shape_invariant s h' log'
    /\ length log' = (length iters + length log)%nat
    /\ (length h' <= length iters + length h)%nat.
Proof.
  induction iters as [|i rest IH]; intros h h' log log' Hinv Hshape;
    cbn [mcts_trace].
  - intros [= <- <-]. auto.
  - destruct (mcts_iteration_traced uct_argmax rollout h 0 i)
      as [[h1 new]| |] eqn:Hit; cbn; try discriminate.
    intros Hrest.
    destruct (shape_iteration s h h1 log new i Hinv Hshape Hit)
      as (Hshape1 & Hnew & Hlen1).
    pose proof (invariant_iteration uct_argmax rollout h h1 log new i Hinv Hit)
      as Hinv1.
    destruct (IH h1 h' (new ++ log) log' Hinv1 Hshape1 Hrest)
      as (Hshape' & Hlog' & Hlen').
    split; [exact Hshape'|]. rewrite Hlog', length_app, Hnew. cbn [length].
    lia.
Qed.

Lemma shape_initial (s : state G) : shape_invariant s [new_node s None] [].
Proof.
  split; [|split].
  - intros [|n] nd Hn; [|discriminate]. injection Hn as <-. cbn.
    split; [reflexivity|]. split; [rewrite take_0; reflexivity|].
    intros i c a Hc. discriminate.
  - split; [eexists; eauto|].
    intros [|n] nd Hn; [reflexivity|discriminate].
  - intros e He. inversion He.
Qed.

(** A run of the loop, with what it maintains. *)
Lemma mcts_loop_run (s : state G) (iters : list nat) (h : store) :
  mcts_loop uct_argmax rollout iters [new_node s None] O = Ret h ->
  exists log,
    tree_invariant h log /\ shape_invariant s h log
    /\ length log = length iters
    /\ (length h <= S (length iters))%nat.
Proof.
  intros Hloop.
  pose proof (mcts_trace_loop uct_argmax rollout iters [new_node s None] [])
    as Htrace.
  destruct (mcts_trace uct_argmax rollout iters [new_node s None] [] 0)
    as [[h' log]| |] eqn:Hrun; rewrite Hloop in Htrace; try discriminate.
  injection Htrace as ->. exists log.
  split; [eapply invariant_trace; eauto using invariant_initial|].
  destruct (shape_trace s iters _ _ _ _ (invariant_initial s)
              (shape_initial s) Hrun) as (Hshape & Hlog & Hlen).
  cbn in Hlog, Hlen. split; [exact Hshape|]. split; lia.
Qed.

End TreeShape.

(** ** What [mcts] and [get_action] hand back *)


Lemma index_of_lookup (k : nat) (l : list nat) (j : nat) :
  index_of k l = Some j -> l !! j = Some k.
Proof.
  revert j. induction l as [|y l IH]; intros j; cbn; [discriminate|].
  destruct (Nat.eqb_spec k y) as [->|Hne].
  - intros [= <-]. reflexivity.
  - destruct (index_of k l) as [j'|]; [|discriminate].
    intros [= <-]. cbn. apply IH. reflexivity.
Qed.

Section MCTSResults.
Context {G : Game}.
Variable uct_argmax : Z -> list (Z * Z) -> nat.
Variable rollout : nat -> state G -> Z.

Abbreviation store := (list (@MCTS_Node G)).

(** Where a result of [mcts] comes from. *)
Lemma mcts_returned (s : state G) (iter_limit : Z) (a : action G) :
  mcts uct_argmax rollout s iter_limit = Ret a ->
  exists (h : store) rn b idx,
    mcts_loop uct_argmax rollout (seq 0 (Z.to_nat iter_limit))
      [new_node s None] O = Ret h
    /\ h !! O = Some rn
    /\ best_child uct_argmax h rn = Ret b
    /\ index_of b (children rn) = Some idx
    /\ children_actions rn !! idx = Some a.
Proof.
  unfold mcts.
  destruct (mcts_loop _ _ _ _ _) as [h| |] eqn:Hloop; cbn; try discriminate.
  destruct (h !! O) as [rn|] eqn:Hrn; [|discriminate].
  destruct (best_child uct_argmax h rn) as [b| |] eqn:Hbest; cbn;
    try discriminate.
  destruct (index_of b (children rn)) as [idx|] eqn:Hidx; [|discriminate].
  destruct (children_actions rn !! idx) as [a'|] eqn:Ha; [|discriminate].
  intros [= <-]. exists h, rn, b, idx. repeat split; assumption.
Qed.

Lemma explored_actions_legal (s : state G) (h : store) log rn a :
  shape_invariant s h log -> h !! O = Some rn ->
  a ∈ children_actions rn -> a ∈ actions s.
Proof.
  intros (Hmir & [(rn' & Hroot & Hst & _) _] & _) Hrn Hin.
  rewrite Hrn in Hroot. injection Hroot as <-.
  destruct (Hmir O rn Hrn) as (_ & Hpre & _).
  rewrite Hpre, Hst in Hin. apply elem_of_take in Hin as (i & Hi & _).
  apply list_elem_of_lookup. eauto.
Qed.




(** Whenever [mcts] returns, what it returns is one of the legal
    actions of the state it was given. *)
Theorem mcts_returns_legal_action (s : state G) (iter_limit : Z)
    (a : action G) :
  mcts uct_argmax rollout s iter_limit = Ret a -> a ∈ actions s.
Proof.
  intros Hret.
  destruct (mcts_returned s iter_limit a Hret)
    as (h & rn & b & idx & Hloop & Hrn & _ & _ & Ha).
  destruct (mcts_loop_run uct_argmax rollout s _ h Hloop)
    as (log & _ & Hshape & _).
  eapply explored_actions_legal; eauto.
  apply list_elem_of_lookup. eauto.
Qed.

(** The action [mcts] returns is the one that leads to the child
    [best_child] picked at the root. *)
Theorem mcts_returns_best_child_action (s : state G) (iter_limit : Z)
    (a : action G) :
  mcts uct_argmax rollout s iter_limit = Ret a ->
  exists (h : store) rn b bn,
    mcts_loop uct_argmax rollout (seq 0 (Z.to_nat iter_limit))
      [new_node s None] O = Ret h
    /\ h !! O = Some rn
    /\ best_child uct_argmax h rn = Ret b
    /\ h !! b = Some bn
    /\ node_state bn = result s a
    /\ parent bn = Some O.
Proof.
  intros Hret.
  destruct (mcts_returned s iter_limit a Hret)
    as (h & rn & b & idx & Hloop & Hrn & Hbest & Hidx & Ha).
  destruct (mcts_loop_run uct_argmax rollout s _ h Hloop)
    as (log & _ & (Hmir & [(rn' & Hroot & Hst & _) _] & _) & _).
  rewrite Hrn in Hroot. injection Hroot as <-.
  destruct (Hmir O rn Hrn) as (_ & _ & Hkids).
  destruct (Hkids idx b a (index_of_lookup _ _ _ Hidx) Ha)
    as (bn & Hbn & Hstate & Hpar).
  rewrite Hst in Hstate. exists h, rn, b, bn. repeat split; assumption.
Qed.

(** Without a single pass ([iter_limit <= 0]) the root has no child and
    [mcts] raises, whatever the state. *)
Theorem mcts_zero_budget_raises (s : state G) (iter_limit : Z) :
  iter_limit <= 0 ->
  mcts uct_argmax rollout s iter_limit = Raise ValueError.
Proof.
  intros Hle. unfold mcts.
  replace (Z.to_nat iter_limit) with O by lia. reflexivity.
Qed.

(** A call of [get_action] raises [IndexError] exactly for a state of
    the first two plies without legal actions; for every other state it
    returns, having kept what was on the queue and put at most one more
    action on it, a legal action of the state. *)
Theorem get_action_outcome (r : nat) (queue : list (action G))
    (s : state G) :
  (ply_count s < 2 /\ actions s = []
   /\ get_action uct_argmax rollout r queue s = Raise IndexError)
  \/ ((2 <= ply_count s \/ actions s <> [])
      /\ exists suffix ret,
           get_action uct_argmax rollout r queue s
           = Ret (queue ++ suffix, ret)
           /\ (length suffix <= 1)%nat
           /\ forall a, a ∈ suffix -> a ∈ actions s).
Proof.
  unfold get_action.
  destruct (Z.ltb_spec (ply_count s) 2) as [Hply|Hply].
  - destruct (actions s) as [|a0 rest] eqn:Hacts.
    + left. auto.
    + right. split; [right; discriminate|].
      destruct (choice_in r (a0 :: rest)) as (a & -> & Hin);
        [discriminate|].
      exists [a], PutResult. split; [reflexivity|]. split; [cbn; lia|].
      intros a' ->%list_elem_of_singleton. exact Hin.
  - right. split; [left; exact Hply|].
    pose proof (mcts_not_stuck uct_argmax rollout s default_iter_limit)
      as Hns.
    destruct (mcts uct_argmax rollout s default_iter_limit) as [a|e|] eqn:Hm;
      [| |congruence].
    + exists [a], BestMoveList. split; [reflexivity|]. split; [cbn; lia|].
      intros a' ->%list_elem_of_singleton.
      destruct (mcts_returned s default_iter_limit a Hm)
        as (h & rn & b & idx & Hloop & Hrn & _ & _ & Ha).
      destruct (mcts_loop_run uct_argmax rollout s _ h Hloop)
        as (log & _ & Hshape & _).
      eapply explored_actions_legal; eauto.
      apply list_elem_of_lookup. eauto.
    + exists [], BestMoveList. rewrite app_nil_r.
      split; [reflexivity|]. split; [cbn; lia|].
      intros a' Ha'. inversion Ha'.
Qed.

End MCTSResults.



Lemma mcts_returns_legal_action_witness :
  O ∈ actions (g := TreeGame) playout_tree.
Proof.
  apply (mcts_returns_legal_action (G := TreeGame) first_child payoff_rollout
           playout_tree 3 O).
  vm_compute. reflexivity.
Defined.

Lemma mcts_returns_best_child_action_witness :
  exists h rn b bn,
    mcts_loop (G := TreeGame) first_child payoff_rollout
      (seq 0 (Z.to_nat 3)) [@new_node TreeGame playout_tree None] O = Ret h
    /\ h !! O = Some rn
    /\ best_child first_child h rn = Ret b
    /\ h !! b = Some bn
    /\ node_state bn = @result TreeGame playout_tree O
    /\ parent bn = Some O.
Proof.
  apply (mcts_returns_best_child_action (G := TreeGame) first_child
           payoff_rollout playout_tree 3 O).
  vm_compute. reflexivity.
Defined.

Lemma mcts_zero_budget_raises_witness :
  mcts (G := TreeGame) first_child payoff_rollout playout_tree 0
  = Raise ValueError.
Proof.
  apply (mcts_zero_budget_raises (G := TreeGame) first_child payoff_rollout
           playout_tree 0).
  lia.
Defined.

(** ** The heuristics against each other *)

Section HeuristicRelations.
Context {G : Game}.

(** [score] is the player's [score2] minus the opponent's, so it never
    exceeds the player's own liberty count and never falls below minus
    the opponent's; neither count is negative. *)
Theorem score_between_score2 (p : Z) (s : state G) :
  score p s = score2 p s - score2 (1 - p) s
  /\ - score2 (1 - p) s <= score p s <= score2 p s
  /\ 0 <= score2 p s.
Proof.
  unfold score, score2, len. cbv zeta.
  pose proof (Nat2Z.is_nonneg (length (liberties s (locs s p)))).
  pose proof (Nat2Z.is_nonneg (length (liberties s (locs s (1 - p))))).
  lia.
Qed.

(** Away from terminal states the values [custom_heuristic] gives the
    two players add up to the two bonuses: the move-count terms cancel.
    So it is antisymmetric, as [score] is, exactly when no bonus is
    paid. *)
Theorem custom_heuristic_swap_sum (p : Z) (s : state G) :
  terminal_test s = false ->
  exists x y,
    custom_heuristic p s = Fin x
    /\ custom_heuristic (1 - p) s = Fin y
    /\ x + y = chase_bonus p s + chase_bonus (1 - p) s.
Proof.
  intros Hterm. unfold custom_heuristic, chase_bonus. rewrite Hterm.
  replace (1 - (1 - p)) with p by lia.
  eexists. eexists. split; [reflexivity|]. split; [reflexivity|].
  destruct (loc_in (locs s p) (actions_of s (1 - p)));
    destruct (loc_in (locs s (1 - p)) (actions_of s p)); lia.
Qed.

End HeuristicRelations.

Lemma custom_heuristic_swap_sum_witness :
  exists x y,
    custom_heuristic (G := TreeGame) 0 (quiet 3 1) = Fin x
    /\ custom_heuristic (G := TreeGame) (1 - 0) (quiet 3 1) = Fin y
    /\ x + y = chase_bonus (G := TreeGame) 0 (quiet 3 1)
               + chase_bonus (G := TreeGame) (1 - 0) (quiet 3 1).
Proof.
  apply (custom_heuristic_swap_sum (G := TreeGame) 0 (quiet 3 1)).
  reflexivity.
Defined.

(** ** The constraint-satisfaction notebook *)

Section Z3Facts.
Import Notebook.

Lemma holds_app m (s1 s2 : Solver) :
  holds m (s1 ++ s2) = holds m s1 && holds m s2.
Proof. apply forallb_app. Qed.

Lemma distinct_spec (l : list Z) :
  distinct l = true <->
  forall i j x y, (i < j)%nat -> l !! i = Some x -> l !! j = Some y -> x <> y.
Proof.
  induction l as [|a l IH]; cbn [distinct].
  - split; [|reflexivity]. intros _ i j x y _ Hi. discriminate Hi.
  - rewrite andb_true_iff, forallb_forall, IH. split.
    + intros [Ha Hl] i j x y Hij Hi Hj. destruct j as [|j]; [lia|].
      destruct i as [|i]; cbn in Hi, Hj.
      * injection Hi as <-. apply list_elem_of_lookup_2, list_elem_of_In in Hj.
        apply Ha in Hj. apply negb_true_iff, Z.eqb_neq in Hj. exact Hj.
      * apply (Hl i j); [lia|assumption|assumption].
    + intros H. split.
      * intros y Hy. apply list_elem_of_In, list_elem_of_lookup in Hy as [j Hj].
        apply negb_true_iff, Z.eqb_neq.
        apply (H 0%nat (S j)); [lia|reflexivity|exact Hj].
      * intros i j x y Hij Hi Hj.
        apply (H (S i) (S j)); [lia|assumption|assumption].
Qed.

Lemma PbEq_none (args : list (constraint * Z)) m :
  (forall bw, bw ∈ args -> 0 < bw.2) ->
  PbEq args 0 m = true <-> forall bw, bw ∈ args -> bw.1 m = false.
Proof.
  intros Hpos. unfold PbEq. rewrite Z.eqb_eq.
  assert (Hsum : 0 <= foldr (fun (bw : constraint * Z) acc =>
                               (if bw.1 m then bw.2 else 0) + acc) 0 args
                 /\ (foldr (fun (bw : constraint * Z) acc =>
                              (if bw.1 m then bw.2 else 0) + acc) 0 args = 0
                     <-> forall bw, bw ∈ args -> bw.1 m = false)).
  { induction args as [|[b w] args IH]; cbn [foldr].
    - split; [lia|]. split; [|reflexivity]. intros _ bw Hbw. inversion Hbw.
    - destruct IH as [Hnn IH].
      { intros bw Hbw. apply Hpos. right. exact Hbw. }
      pose proof (Hpos (b, w) (list_elem_of_here _ _)) as Hw. cbn in Hw.
      cbn [fst snd].
      split; [destruct (b m); lia|]. split.
      + intros Hz bw Hbw. destruct (b m) eqn:Hb; [lia|].
        apply elem_of_cons in Hbw as [->|Hbw]; [exact Hb|].
        apply IH; [lia|exact Hbw].
      + intros Hall.
        pose proof (Hall (b, w) (list_elem_of_here _ _)) as Hb.
        cbn in Hb. rewrite Hb.
        assert (Hrest : forall bw, bw ∈ args -> bw.1 m = false)
          by (intros bw Hbw; apply Hall; right; exact Hbw).
        apply IH in Hrest. lia. }
  apply Hsum.
Qed.

Lemma forallb_flat_map {A B} (f : B -> bool) (g : A -> list B) (l : list A) :
  forallb f (flat_map g l) = forallb (fun x => forallb f (g x)) l.
Proof.
  induction l as [|x l IH]; cbn; [reflexivity|].
  rewrite forallb_app, IH. reflexivity.
Qed.

Lemma flat_map_map {A B C} (f : A -> B) (g : B -> list C) (l : list A) :
  flat_map g (map f l) = flat_map (fun x => g (f x)) l.
Proof.
  induction l as [|x l IH]; cbn; [reflexivity|]. rewrite IH. reflexivity.
Qed.

Lemma PbEq_ones (bs : list constraint) m :
  PbEq (map (fun b => (b, 1)) bs) 0 m = true
  <-> forallb (fun b => negb (b m)) bs = true.
Proof.
  rewrite PbEq_none.
  - rewrite forallb_forall. split.
    + intros H b Hb. apply negb_true_iff. apply (H (b, 1)).
      apply list_elem_of_In, in_map_iff. exists b. auto.
    + intros H bw Hbw. apply list_elem_of_In, in_map_iff in Hbw
        as (b & <- & Hb). apply H in Hb. apply negb_true_iff in Hb. exact Hb.
  - intros bw Hbw. apply list_elem_of_In, in_map_iff in Hbw as (b & <- & _).
    cbn. lia.
Qed.

Lemma assign_zip (names : list string) (vals : list Z) i x v :
  NoDup names -> names !! i = Some x -> vals !! i = Some v ->
  assign (zip names vals) x = v.
Proof.
  intros Hnd. revert vals i. induction Hnd as [|y names Hy Hnd IH];
    intros vals i Hx Hv; [discriminate Hx|].
  destruct vals as [|w vals]; [discriminate Hv|]. cbn [zip zip_with assign].
  destruct i as [|i]; cbn in Hx, Hv.
  - injection Hx as ->. injection Hv as ->. rewrite String.eqb_refl.
    reflexivity.
  - destruct (String.eqb_spec x y) as [->|_].
    + exfalso. apply Hy. apply list_elem_of_lookup_2 in Hx. exact Hx.
    + apply (IH vals i); assumption.
Qed.

End Z3Facts.


Section Cryptarithm.
Import Notebook.

Lemma ca_holds m :
  holds m ca_solver
  = holds (ca_assignment (F m) (O m) (R m) (T m) (U m) (W m)) ca_solver.
Proof. reflexivity. Qed.

Lemma digit_cases z : 0 <= z <= 9 -> In z digits.
Proof.
  intros H. unfold digits. cbn [In].
  assert (z = 0 \/ z = 1 \/ z = 2 \/ z = 3 \/ z = 4 \/ z = 5 \/ z = 6
          \/ z = 7 \/ z = 8 \/ z = 9) by lia.
  intuition auto.
Qed.

Lemma ca_search_complete : ca_search = true.
Proof. vm_compute. reflexivity. Qed.

(** The assignments that satisfy the constraints of [ca_solver] are
    exactly those that read one of the seven sums 734 + 734 = 1468,
    765 + 765 = 1530, 836 + 836 = 1672, 846 + 846 = 1692,
    867 + 867 = 1734, 928 + 928 = 1856, 938 + 938 = 1876; so [check()]
    answers [sat], and [F] is 1 in whatever model is printed. *)
Theorem cryptarithm_models (m : assignment) :
  holds m ca_solver = true <-> In (ca_letters m) ca_solutions.
Proof.
  split.
  - intros Hm. pose proof Hm as Hcs.
    unfold holds, ca_solver, add in Hcs. cbn [app forallb] in Hcs.
    repeat (apply andb_true_iff in Hcs; destruct Hcs as [? Hcs]).
    repeat match goal with
           | H : (_ <=? _) = true |- _ => apply Z.leb_le in H
           | H : negb (_ =? _) = true |- _ =>
               apply negb_true_iff, Z.eqb_neq in H
           | H : (_ =? _) = true |- _ => apply Z.eqb_eq in H
           end.
    change (10 ^ 3) with 1000 in *. change (10 ^ 2) with 100 in *.
    change (10 ^ 1) with 10 in *. change (10 ^ 0) with 1 in *.
    assert (HF : F m = 1) by lia.
    assert (HR : R m = 200 * T m + 20 * W m + 2 * O m - 1000
                       - 100 * O m - 10 * U m) by lia.
    pose proof ca_search_complete as Hsearch. unfold ca_search in Hsearch.
    rewrite forallb_forall in Hsearch.
    specialize (Hsearch (T m) (digit_cases (T m) ltac:(lia))).
    rewrite forallb_forall in Hsearch.
    specialize (Hsearch (W m) (digit_cases (W m) ltac:(lia))).
    rewrite forallb_forall in Hsearch.
    specialize (Hsearch (O m) (digit_cases (O m) ltac:(lia))).
    rewrite forallb_forall in Hsearch.
    specialize (Hsearch (U m) (digit_cases (U m) ltac:(lia))).
    cbv zeta in Hsearch. rewrite <- HR, <- HF, <- ca_holds, Hm in Hsearch.
    cbn [implb] in Hsearch. apply existsb_exists in Hsearch.
    destruct Hsearch as (l & Hin & Heq).
    apply bool_decide_eq_true in Heq. unfold ca_letters. rewrite Heq. exact Hin.
  - intros Hin. rewrite ca_holds. unfold ca_letters in Hin.
    unfold ca_solutions in Hin. cbn [In] in Hin.
    repeat destruct Hin as [Hin|Hin];
      try (injection Hin as <- <- <- <- <- <-; vm_compute; reflexivity).
    destruct Hin.
Qed.

End Cryptarithm.

Section MapColoring.
Import Notebook.

Lemma mc_holds (m : assignment) :
  holds m mc_solver = true <->
  (0 <= WA m <= 2 /\ 0 <= NT m <= 2 /\ 0 <= SA m <= 2 /\ 0 <= Q m <= 2
   /\ 0 <= NSW m <= 2 /\ 0 <= V m <= 2 /\ 0 <= T m <= 2)
  /\ WA m <> NT m /\ WA m <> SA m /\ NT m <> SA m /\ NT m <> Q m
  /\ SA m <> Q m /\ SA m <> NSW m /\ SA m <> V m /\ Q m <> NSW m
  /\ NSW m <> V m.
Proof.
  unfold holds, mc_solver, add. cbn [app forallb].
  change [(same WA NT, 1); (same WA SA, 1)]
    with (map (fun b : constraint => (b, 1)) [same WA NT; same WA SA]).
  change [(same NT WA, 1); (same NT SA, 1); (same NT Q, 1)]
    with (map (fun b : constraint => (b, 1))
              [same NT WA; same NT SA; same NT Q]).
  change [(same SA WA, 1); (same SA NT, 1); (same SA Q, 1); (same SA NSW, 1);
          (same SA V, 1)]
    with (map (fun b : constraint => (b, 1))
              [same SA WA; same SA NT; same SA Q; same SA NSW; same SA V]).
  change [(same Q NT, 1); (same Q SA, 1); (same Q NSW, 1)]
    with (map (fun b : constraint => (b, 1))
              [same Q NT; same Q SA; same Q NSW]).
  change [(same NSW SA, 1); (same NSW Q, 1); (same NSW V, 1)]
    with (map (fun b : constraint => (b, 1))
              [same NSW SA; same NSW Q; same NSW V]).
  change [(same V SA, 1); (same V NSW, 1)]
    with (map (fun b : constraint => (b, 1)) [same V SA; same V NSW]).
  rewrite !andb_true_iff, !PbEq_ones. cbn [forallb]. unfold same.
  rewrite !andb_true_iff, !negb_true_iff, !Z.leb_le, !Z.eqb_neq.
  intuition lia.
Qed.

(** The pseudo-boolean constraints of [mc_solver] say that the two
    regions of each of the nine borders differ in colour; with three
    colours this leaves the colourings in which Western Australia,
    Northern Territory and South Australia take the three colours,
    Queensland and Victoria repeat Western Australia's, New South Wales
    repeats Northern Territory's, and Tasmania takes any. *)
Theorem map_coloring_models (m : assignment) :
  (holds m mc_solver = true <->
   (0 <= WA m <= 2 /\ 0 <= NT m <= 2 /\ 0 <= SA m <= 2 /\ 0 <= Q m <= 2
    /\ 0 <= NSW m <= 2 /\ 0 <= V m <= 2 /\ 0 <= T m <= 2)
   /\ WA m <> NT m /\ WA m <> SA m /\ NT m <> SA m /\ NT m <> Q m
   /\ SA m <> Q m /\ SA m <> NSW m /\ SA m <> V m /\ Q m <> NSW m
   /\ NSW m <> V m)
  /\ (holds m mc_solver = true <->
      (0 <= WA m <= 2 /\ 0 <= NT m <= 2 /\ 0 <= SA m <= 2 /\ 0 <= T m <= 2)
      /\ WA m <> NT m /\ WA m <> SA m /\ NT m <> SA m
      /\ Q m = WA m /\ V m = WA m /\ NSW m = NT m).
Proof.
  split; [apply mc_holds|]. rewrite mc_holds. split.
  - intros (Hrange & Hborders). repeat split; lia.
  - intros (Hrange & ? & ? & ? & HQ & HV & HNSW).
    rewrite HQ, HV, HNSW. repeat split; lia.
Qed.

Lemma color_of_range (m : assignment) (x : term) :
  0 <= x m <= 2 ->
  exists c, color_of m x = Some c /\ In c ["Blue"; "Red"; "Green"]%string.
Proof.
  intros Hx. unfold color_of.
  assert (Hcases : x m = 0 \/ x m = 1 \/ x m = 2) by lia.
  destruct Hcases as [-> | [-> | ->]]; eexists; (split; [reflexivity|]);
    cbn; auto.
Qed.

(** For every model of [mc_solver] the report cell finds a colour name
    for each of the seven regions: none of its lookups in [colors]
    raises [KeyError]. *)
Theorem map_coloring_report (m : assignment) :
  holds m mc_solver = true ->
  exists names,
    mc_report m = Some names
    /\ length names = 7%nat
    /\ Forall (fun c => In c ["Blue"; "Red"; "Green"]%string) names.
Proof.
  intros Hm.
  apply mc_holds in Hm as [(RWA & RNT & RSA & RQ & RNSW & RV & RT) _].
  destruct (color_of_range m WA RWA) as (c1 & E1 & I1).
  destruct (color_of_range m NT RNT) as (c2 & E2 & I2).
  destruct (color_of_range m SA RSA) as (c3 & E3 & I3).
  destruct (color_of_range m Q RQ) as (c4 & E4 & I4).
  destruct (color_of_range m NSW RNSW) as (c5 & E5 & I5).
  destruct (color_of_range m V RV) as (c6 & E6 & I6).
  destruct (color_of_range m T RT) as (c7 & E7 & I7).
  exists [c1; c2; c3; c4; c5; c6; c7]. split; [|split].
  - unfold mc_report. cbn [mapM]. rewrite E1, E2, E3, E4, E5, E6, E7.
    reflexivity.
  - reflexivity.
  - repeat (constructor; [assumption|]). constructor.
Qed.

Lemma map_coloring_report_witness :
  exists names,
    mc_report (assign [("WA", 2); ("NT", 0); ("SA", 1); ("Q", 2);
                       ("NSW", 0); ("V", 2); ("T", 0)]) = Some names
    /\ length names = 7%nat
    /\ Forall (fun c => In c ["Blue"; "Red"; "Green"]%string) names.
Proof.
  apply (map_coloring_report
           (assign [("WA", 2); ("NT", 0); ("SA", 1); ("Q", 2);
                    ("NSW", 0); ("V", 2); ("T", 0)])).
  vm_compute. reflexivity.
Defined.

End MapColoring.

Section Queens.
Import Notebook.

Lemma Abs_spec (x : term) m : Abs x m = Z.abs (x m).
Proof.
  unfold Abs, If. destruct (Z.geb_spec (x m) 0); lia.
Qed.

Lemma foldl_add {A} (f : Solver -> A -> Solver) (g : A -> list constraint)
    (l : list A) (s : Solver) :
  (forall s x, f s x = s ++ g x) ->
  foldl f s l = s ++ flat_map g l.
Proof.
  intros Hf. revert s. induction l as [|x l IH]; intros s; cbn.
  - symmetry. apply app_nil_r.
  - rewrite IH, Hf, <- app_assoc. reflexivity.
Qed.

Lemma enumerate_map {A} (f : nat -> A) (n : nat) :
  enumerate (map f (seq 0 n)) = map (fun i => (i, f i)) (seq 0 n).
Proof.
  unfold enumerate. rewrite length_map, length_seq.
  generalize 0%nat as a. induction n as [|n IH]; intros a; cbn.
  - reflexivity.
  - f_equal. apply IH.
Qed.

Lemma nqueens_unfold (N : Z) :
  0 < N ->
  nqueens N
  = Some
      (flat_map (fun i => [fun m => 0 <=? queen m i;
                           fun m => queen m i <? N]) (range N)
       ++ [Distinct (map (fun i => Int (queen_name i)) (range N))]
       ++ flat_map (fun i =>
            flat_map (fun j =>
              if Nat.eqb i j then []
              else [fun m => negb (Abs (fun m => queen m i - queen m j) m
                                   =? Z.abs (Z.of_nat i - Z.of_nat j))])
              (range N)) (range N)).
Proof.
  intros HN. unfold nqueens, add, chain. cbv zeta.
  assert (Hcall : Distinct_call (map (fun i => Int (queen_name i)) (range N))
                  = Some (Distinct (map (fun i => Int (queen_name i))
                                        (range N)))).
  { unfold range. destruct (Z.to_nat N) as [|n] eqn:Hn; [lia|]. reflexivity. }
  rewrite Hcall. cbn [mbind option_bind]. f_equal.
  rewrite (foldl_add _
    (fun iq1 : nat * term =>
       flat_map (fun jq2 : nat * term =>
         if Nat.eqb iq1.1 jq2.1 then []
         else [fun m => negb (Abs (fun m => iq1.2 m - jq2.2 m) m
                              =? Z.abs (Z.of_nat iq1.1 - Z.of_nat jq2.1))])
         (enumerate (map (fun i => Int (queen_name i)) (range N))))).
  - rewrite app_nil_l, <- app_assoc. f_equal.
    + rewrite <- flat_map_concat_map, flat_map_map. reflexivity.
    + f_equal. unfold range. rewrite enumerate_map, flat_map_map.
      apply flat_map_ext. intros i. rewrite flat_map_map. reflexivity.
  - intros s iq1.
    apply (foldl_add _
      (fun jq2 : nat * term =>
         if Nat.eqb iq1.1 jq2.1 then []
         else [fun m => negb (Abs (fun m => iq1.2 m - jq2.2 m) m
                              =? Z.abs (Z.of_nat iq1.1 - Z.of_nat jq2.1))])).
    intros s' jq2. destruct (Nat.eqb iq1.1 jq2.1).
    + symmetry. apply app_nil_r.
    + reflexivity.
Qed.

Lemma nqueens_raises (N : Z) : N <= 0 -> nqueens N = None.
Proof.
  intros HN. unfold nqueens, range. replace (Z.to_nat N) with 0%nat by lia.
  reflexivity.
Qed.

Lemma nqueens_holds (N : Z) (s : Solver) (m : assignment) :
  nqueens N = Some s ->
  holds m s = true <->
  (forall i, (i < Z.to_nat N)%nat -> 0 <= queen m i < N)
  /\ (forall i j, (i < j < Z.to_nat N)%nat ->
        queen m i <> queen m j
        /\ Z.abs (queen m i - queen m j) <> Z.of_nat j - Z.of_nat i).
Proof.
  intros Hs. destruct (Z.le_gt_cases N 0) as [HN|HN].
  { rewrite nqueens_raises in Hs by exact HN. discriminate Hs. }
  rewrite nqueens_unfold in Hs by lia. injection Hs as <-.
  unfold holds, range.
  rewrite !forallb_app, !andb_true_iff, !forallb_flat_map.
  cbn [forallb]. rewrite andb_true_iff, forallb_flat_map.
  unfold Distinct. rewrite map_map.
  rewrite distinct_spec, !forallb_forall.
  split.
  - intros (Hrange & Hrows & Hdiag). split.
    + intros i Hi. specialize (Hrange i). rewrite in_seq in Hrange.
      specialize (Hrange ltac:(lia)).
      rewrite !andb_true_iff, Z.leb_le, Z.ltb_lt in Hrange. lia.
    + intros i j Hij. split.
      * apply (Hrows i j); [lia| |];
          rewrite list_lookup_fmap, lookup_seq_lt by lia; reflexivity.
      * specialize (Hdiag i). rewrite in_seq in Hdiag.
        specialize (Hdiag ltac:(lia)). rewrite forallb_flat_map in Hdiag.
        rewrite forallb_forall in Hdiag. specialize (Hdiag j).
        rewrite in_seq in Hdiag. specialize (Hdiag ltac:(lia)).
        destruct (Nat.eqb_spec i j) as [|_]; [lia|].
        cbn [forallb] in Hdiag. rewrite andb_true_r in Hdiag.
        apply negb_true_iff, Z.eqb_neq in Hdiag. rewrite Abs_spec in Hdiag.
        lia.
  - intros [Hrange Hpairs]. split; [|split].
    + intros i Hi. apply in_seq in Hi. specialize (Hrange i ltac:(lia)).
      rewrite !andb_true_iff, Z.leb_le, Z.ltb_lt. lia.
    + intros i j x y Hij Hi Hj.
      rewrite list_lookup_fmap in Hi, Hj.
      destruct (seq 0 (Z.to_nat N) !! j) as [j'|] eqn:Hj'; [|discriminate].
      destruct (seq 0 (Z.to_nat N) !! i) as [i'|] eqn:Hi'; [|discriminate].
      apply lookup_seq in Hi' as [-> ?]. apply lookup_seq in Hj' as [-> ?].
      cbn in Hi, Hj. injection Hi as <-. injection Hj as <-.
      apply (Hpairs i j). lia.
    + intros i Hi. apply in_seq in Hi. rewrite forallb_flat_map.
      apply forallb_forall. intros j Hj. apply in_seq in Hj.
      destruct (Nat.eqb_spec i j) as [|Hne]; [reflexivity|].
      cbn [forallb]. rewrite andb_true_r.
      apply negb_true_iff, Z.eqb_neq. rewrite Abs_spec.
      destruct (Nat.lt_ge_cases i j) as [Hlt|Hge].
      * destruct (Hpairs i j ltac:(lia)) as [_ Hd]. lia.
      * destruct (Hpairs j i ltac:(lia)) as [_ Hd]. lia.
Qed.

Lemma nqueens_returns (N : Z) : 0 < N -> exists s, nqueens N = Some s.
Proof.
  intros HN. rewrite nqueens_unfold by exact HN. eauto.
Qed.

(** For [N >= 1], [nqueens(N)] returns a solver, and the assignments
    that satisfy its constraints are the placements of [N] queens, one
    per column, on the rows [0 .. N-1] with no two queens on one row or
    on one diagonal: the double loop, which visits every pair twice, and
    [Abs] say no more and no less. *)
Theorem nqueens_models (N : Z) :
  0 < N ->
  exists s,
    nqueens N = Some s
    /\ forall m,
         holds m s = true <->
         (forall i, (i < Z.to_nat N)%nat -> 0 <= queen m i < N)
         /\ (forall i j, (i < Z.to_nat N)%nat -> (j < Z.to_nat N)%nat ->
               i <> j ->
               queen m i <> queen m j
               /\ queen m i - queen m j <> Z.of_nat i - Z.of_nat j
               /\ queen m i - queen m j <> Z.of_nat j - Z.of_nat i).
Proof.
  intros HN. destruct (nqueens_returns N HN) as [s Hs].
  exists s. split; [exact Hs|]. intros m.
  rewrite (nqueens_holds N s m Hs).
  split; intros [Hrange Hpairs]; (split; [exact Hrange|]).
  - intros i j Hi Hj Hne. destruct (Nat.lt_ge_cases i j) as [Hlt|Hge].
    + destruct (Hpairs i j ltac:(lia)). lia.
    + destruct (Hpairs j i ltac:(lia)). lia.
  - intros i j Hij. destruct (Hpairs i j ltac:(lia) ltac:(lia) ltac:(lia))
      as (? & ? & ?). lia.
Qed.

(** The constraints of [nqueens(N)] do not tell the board from its
    mirror images: a solution stays one when every row [r] is replaced
    by [N - 1 - r], and when the queens are taken in reverse order. *)
Theorem nqueens_symmetric (N : Z) (s : Solver) (m : assignment) :
  nqueens N = Some s ->
  holds m s = true ->
  holds (fun x => N - 1 - m x) s = true
  /\ forall m',
       (forall i, (i < Z.to_nat N)%nat ->
          queen m' i = queen m (Z.to_nat N - 1 - i)) ->
       holds m' s = true.
Proof.
  intros Hs. rewrite !(nqueens_holds N s _ Hs). intros [Hrange Hpairs]. split.
  - unfold queen in *. split.
    + intros i Hi. specialize (Hrange i Hi). lia.
    + intros i j Hij. specialize (Hpairs i j Hij). lia.
  - intros m' Hm'. apply (nqueens_holds N s m' Hs). split.
    + intros i Hi. rewrite (Hm' i Hi). apply Hrange. lia.
    + intros i j Hij. rewrite (Hm' i), (Hm' j) by lia.
      destruct (Hpairs (Z.to_nat N - 1 - j)%nat (Z.to_nat N - 1 - i)%nat
                  ltac:(lia)) as [? ?].
      lia.
Qed.

(** The small boards: for [N <= 0] the list of queens is empty,
    [Distinct] raises and [nqueens(N)] returns no solver; [nqueens(1)]
    puts its queen on row 0; the constraints of [nqueens(2)] and of
    [nqueens(3)] have no model at all. *)
Theorem nqueens_small_boards :
  (forall N, N <= 0 -> nqueens N = None)
  /\ (exists s, nqueens 1 = Some s
                /\ forall m, holds m s = true <-> queen m 0 = 0)
  /\ (exists s, nqueens 2 = Some s /\ forall m, holds m s = false)
  /\ (exists s, nqueens 3 = Some s /\ forall m, holds m s = false).
Proof.
  split; [exact nqueens_raises|split; [|split]].
  - destruct (nqueens_returns 1 ltac:(lia)) as [s Hs].
    exists s. split; [exact Hs|]. intros m.
    rewrite (nqueens_holds 1 s m Hs). split.
    + intros [Hrange _]. specialize (Hrange 0%nat ltac:(lia)). lia.
    + intros Hq. split.
      * intros i Hi. replace i with 0%nat by lia. lia.
      * intros i j Hij. lia.
  - destruct (nqueens_returns 2 ltac:(lia)) as [s Hs].
    exists s. split; [exact Hs|]. intros m.
    destruct (holds m s) eqn:H; [|reflexivity].
    apply (nqueens_holds 2 s m Hs) in H as [Hrange Hpairs].
    pose proof (Hrange 0%nat ltac:(lia)). pose proof (Hrange 1%nat ltac:(lia)).
    pose proof (Hpairs 0%nat 1%nat ltac:(lia)). lia.
  - destruct (nqueens_returns 3 ltac:(lia)) as [s Hs].
    exists s. split; [exact Hs|]. intros m.
    destruct (holds m s) eqn:H; [|reflexivity].
    apply (nqueens_holds 3 s m Hs) in H as [Hrange Hpairs].
    pose proof (Hrange 0%nat ltac:(lia)). pose proof (Hrange 1%nat ltac:(lia)).
    pose proof (Hrange 2%nat ltac:(lia)).
    pose proof (Hpairs 0%nat 1%nat ltac:(lia)).
    pose proof (Hpairs 0%nat 2%nat ltac:(lia)).
    pose proof (Hpairs 1%nat 2%nat ltac:(lia)). lia.
Qed.

Lemma queen_name_inj i j : queen_name i = queen_name j -> i = j.
Proof.
  unfold queen_name. cbn. intros H. injection H as H.
  apply pretty_nat_inj in H. exact H.
Qed.

Lemma placement_queen (rows : list Z) i v :
  rows !! i = Some v -> queen (placement rows) i = v.
Proof.
  intros Hv. unfold queen, placement.
  apply (assign_zip _ _ i); [| |exact Hv].
  - apply NoDup_fmap_2; [intros a b; apply queen_name_inj|apply NoDup_seq].
  - rewrite list_lookup_fmap, lookup_seq_lt; [reflexivity|].
    apply lookup_lt_Some in Hv. exact Hv.
Qed.

(** On every board of even size [N] with [N mod 3 <> 2], [nqueens(N)]
    returns a solver and the staircase (rows 1, 3, 5, ... then
    0, 2, 4, ...) satisfies its constraints; 16 and 64 are such
    sizes. *)
Theorem nqueens_staircase (N : Z) :
  0 < N -> N mod 2 = 0 -> N mod 3 <> 2 ->
  exists s, nqueens N = Some s
            /\ holds (placement (staircase N)) s = true.
Proof.
  intros Hpos Heven Hthree. destruct (nqueens_returns N Hpos) as [s Hs].
  exists s. split; [exact Hs|]. apply (nqueens_holds N s _ Hs).
  assert (Hq : forall i, (i < Z.to_nat N)%nat ->
            queen (placement (staircase N)) i
            = if 2 * Z.of_nat i + 1 <? N then 2 * Z.of_nat i + 1
              else 2 * Z.of_nat i - N).
  { intros i Hi. apply placement_queen. unfold staircase, range.
    rewrite list_lookup_fmap, lookup_seq_lt by exact Hi. reflexivity. }
  split.
  - intros i Hi. rewrite (Hq i Hi).
    destruct (Z.ltb_spec (2 * Z.of_nat i + 1) N); Z.div_mod_to_equations; lia.
  - intros i j Hij. rewrite (Hq i), (Hq j) by lia.
    destruct (Z.ltb_spec (2 * Z.of_nat i + 1) N);
      destruct (Z.ltb_spec (2 * Z.of_nat j + 1) N);
      Z.div_mod_to_equations; lia.
Qed.

(** For each of the [sizes] the notebook runs (8, 16, 32 and 64),
    [nqueens(N)] returns a solver whose constraints have a model. *)
Theorem nqueens_sizes_sat :
  Forall (fun N => exists s, nqueens N = Some s /\ sat s) sizes.
Proof.
  unfold sizes. repeat constructor.
  - rewrite nqueens_unfold by lia. eexists. split; [reflexivity|].
    exists (placement queens8). vm_compute. reflexivity.
  - rewrite nqueens_unfold by lia. eexists. split; [reflexivity|].
    exists (placement (staircase 16)). vm_compute. reflexivity.
  - rewrite nqueens_unfold by lia. eexists. split; [reflexivity|].
    exists (placement queens32). vm_compute. reflexivity.
  - rewrite nqueens_unfold by lia. eexists. split; [reflexivity|].
    exists (placement (staircase 64)). vm_compute. reflexivity.
Qed.

Lemma nqueens_models_witness :
  exists s,
    nqueens 4 = Some s
    /\ forall m,
         holds m s = true <->
         (forall i, (i < Z.to_nat 4)%nat -> 0 <= queen m i < 4)
         /\ (forall i j, (i < Z.to_nat 4)%nat -> (j < Z.to_nat 4)%nat ->
               i <> j ->
               queen m i <> queen m j
               /\ queen m i - queen m j <> Z.of_nat i - Z.of_nat j
               /\ queen m i - queen m j <> Z.of_nat j - Z.of_nat i).
Proof.
  apply (nqueens_models 4). lia.
Defined.

Lemma nqueens_symmetric_witness :
  match nqueens 4 with
  | Some s =>
      holds (fun x => 4 - 1 - placement [1; 3; 0; 2] x) s = true
      /\ forall m',
           (forall i, (i < Z.to_nat 4)%nat ->
              queen m' i
              = queen (placement [1; 3; 0; 2]) (Z.to_nat 4 - 1 - i)) ->
           holds m' s = true
  | None => False
  end.
Proof.
  destruct (nqueens 4) as [s|] eqn:Hs.
  - apply (nqueens_symmetric 4 s (placement [1; 3; 0; 2]) Hs).
    vm_compute in Hs. injection Hs as <-. vm_compute. reflexivity.
  - vm_compute in Hs. discriminate Hs.
Defined.

Lemma nqueens_staircase_witness :
  exists s, nqueens 4 = Some s
            /\ holds (placement (staircase 4)) s = true.
Proof.
  apply (nqueens_staircase 4); [lia | reflexivity | vm_compute; discriminate].
Defined.

End Queens.

Section Sudoku.
Import Notebook.

Lemma s_solver_view : s_solver = s_solver_by_cell.
Proof. vm_compute. reflexivity. Qed.

Lemma cell_eqb_eq c d : cell_eqb c d = true <-> c = d.
Proof.
  destruct c as [a b], d as [a' b']. unfold cell_eqb. cbn.
  rewrite andb_true_iff, !Nat.eqb_eq. split; [intros [-> ->]; reflexivity|].
  intros H. injection H as -> ->. auto.
Qed.

Lemma distinct_map_eq {A} (f : A -> Z) (u : list A) c d :
  distinct (map f u) = true -> In c u -> In d u -> f c = f d -> c = d.
Proof.
  induction u as [|a u IH]; [intros _ []|].
  cbn [map distinct]. rewrite andb_true_iff, forallb_forall.
  intros [Ha Hu] Hc Hd Heq.
  assert (Hfresh : forall x, In x u -> f a <> f x).
  { intros x Hx. apply Z.eqb_neq, negb_true_iff, Ha, in_map, Hx. }
  destruct Hc as [<-|Hc], Hd as [<-|Hd]; [reflexivity| | |auto].
  - exfalso. apply (Hfresh d Hd). exact Heq.
  - exfalso. apply (Hfresh c Hc). symmetry. exact Heq.
Qed.

Lemma sudoku_constraints m :
  holds m s_solver = true ->
  (forall c, In c cells -> 1 <= box_value m c <= 9)
  /\ (forall u, In u units -> distinct (map (box_value m) u) = true)
  /\ (forall c, In c cells -> hint c.1 c.2 <> 0 ->
        box_value m c = hint c.1 c.2).
Proof.
  rewrite s_solver_view. unfold s_solver_by_cell, holds.
  rewrite !forallb_app, !andb_true_iff, !forallb_flat_map, !forallb_forall.
  intros (Hrange & Hunits & Hhints). split; [|split].
  - intros c Hc. specialize (Hrange c Hc). cbn [forallb] in Hrange.
    rewrite !andb_true_iff, !Z.leb_le in Hrange. lia.
  - intros u Hu.
    specialize (Hunits (Distinct (map (fun c m => box_value m c) u))
                  (in_map _ _ _ Hu)).
    unfold Distinct in Hunits. rewrite map_map in Hunits. exact Hunits.
  - intros c Hc Hne. specialize (Hhints c Hc).
    destruct (Z.eqb_spec (hint c.1 c.2) 0) as [|_]; [contradiction|].
    cbn [forallb] in Hhints. rewrite andb_true_r in Hhints.
    apply Z.eqb_eq in Hhints. exact Hhints.
Qed.

Lemma peers_differ m c d :
  holds m s_solver = true -> peers c d = true -> box_value m c <> box_value m d.
Proof.
  intros Hm Hp Heq. apply sudoku_constraints in Hm as (_ & Hunits & _).
  unfold peers in Hp. destruct (cell_eqb c d) eqn:Hne; [discriminate Hp|].
  apply existsb_exists in Hp as (u & Hu & Hcd).
  destruct (existsb (cell_eqb c) u) eqn:Hc; [|discriminate Hcd].
  rename Hcd into Hd.
  apply existsb_exists in Hc as (c' & Hc' & ->%cell_eqb_eq).
  apply existsb_exists in Hd as (d' & Hd' & ->%cell_eqb_eq).
  pose proof (distinct_map_eq (box_value m) u c' d' (Hunits u Hu) Hc' Hd' Heq)
    as ->.
  assert (cell_eqb d' d' = true) by (apply cell_eqb_eq; reflexivity).
  congruence.
Qed.

Lemma Forall2_map_r {A B} (P : A -> B -> Prop) (f : A -> B) (l : list A) :
  (forall x, In x l -> P x (f x)) -> Forall2 P l (map f l).
Proof.
  induction l as [|x l IH]; intros H; cbn; constructor.
  - apply H. left. reflexivity.
  - apply IH. intros y Hy. apply H. right. exact Hy.
Qed.

Lemma Forall2_zip_in {A B} (P : A -> B -> Prop) l k x y :
  Forall2 P l k -> In (x, y) (zip l k) -> P x y.
Proof.
  induction 1 as [|a b l k Hab _ IH]; cbn; [intros []|].
  intros [Heq|Hin]; [injection Heq as <- <-; exact Hab|auto].
Qed.

Lemma Forall2_zip_with {A B} (P : A -> B -> Prop) (g : A -> B -> B) l k :
  (forall x y, P x y -> P x (g x y)) ->
  Forall2 P l k -> Forall2 P l (zip_with g l k).
Proof.
  intros Hg. induction 1; cbn; constructor; auto.
Qed.

Lemma fits_start m : holds m s_solver = true -> fits m start.
Proof.
  intros Hm. apply sudoku_constraints in Hm as (Hrange & _ & Hhints).
  unfold fits, start. apply Forall2_map_r. intros c Hc.
  destruct (Z.eqb_spec (hint c.1 c.2) 0) as [_|Hne].
  - specialize (Hrange c Hc). cbn [In].
    assert (box_value m c = 1 \/ box_value m c = 2 \/ box_value m c = 3
            \/ box_value m c = 4 \/ box_value m c = 5 \/ box_value m c = 6
            \/ box_value m c = 7 \/ box_value m c = 8 \/ box_value m c = 9)
      by lia.
    intuition auto.
  - left. symmetry. apply Hhints; assumption.
Qed.

Lemma fits_eliminate m cand :
  holds m s_solver = true -> fits m cand -> fits m (eliminate cand).
Proof.
  intros Hm Hfit. unfold fits, eliminate.
  apply Forall2_zip_with; [|exact Hfit].
  intros d vs Hin. apply filter_In. split; [exact Hin|].
  apply negb_true_iff. destruct (taken cand d (box_value m d)) eqn:Htaken;
    [exfalso|reflexivity].
  unfold taken in Htaken. apply existsb_exists in Htaken as ([c ws] & Hcw & H).
  cbn [fst snd] in H. destruct ws as [|w [|? ?]]; try discriminate H.
  destruct (Z.eqb_spec w (box_value m d)) as [Hw|_]; [|discriminate H].
  rename H into Hp.
  pose proof (Forall2_zip_in _ _ _ _ _ Hfit Hcw) as Hc.
  destruct Hc as [Hc|[]].
  apply (peers_differ m c d Hm Hp). congruence.
Qed.

Lemma fits_rounds m n :
  holds m s_solver = true -> fits m (Nat.iter n eliminate start).
Proof.
  intros Hm. induction n as [|n IH]; cbn [Nat.iter nat_rect].
  - apply fits_start, Hm.
  - apply fits_eliminate; assumption.
Qed.

Lemma ten_rounds :
  Nat.iter 10 eliminate start = map (fun v => [v]) (concat printed).
Proof. vm_compute. reflexivity. Qed.

Lemma fits_settled m (sol : list Z) (l : list cell) :
  Forall2 (fun c vs => In (box_value m c) vs) l (map (fun v => [v]) sol) ->
  map (box_value m) l = sol.
Proof.
  revert l. induction sol as [|v sol IH]; intros l H; inversion H; subst; cbn.
  - reflexivity.
  - f_equal; [|apply IH; assumption].
    match goal with Hin : In _ [_] |- _ => destruct Hin as [Hin|[]] end. auto.
Qed.

(** The constraints of [s_solver] have one solution on the 81 boxes,
    the grid the notebook prints: that grid satisfies them, and every
    assignment that satisfies them gives the boxes, read row by row, the
    printed values. *)
Theorem sudoku_one_solution :
  holds (grid printed) s_solver = true
  /\ forall m, holds m s_solver = true ->
               map (box_value m) cells = concat printed.
Proof.
  split; [vm_compute; reflexivity|].
  intros m Hm. apply fits_settled. rewrite <- ten_rounds.
  apply (fits_rounds m 10 Hm).
Qed.

End Sudoku.
